(** * iterable-avl: a shallow embedding of [src/index.ts]

    The tree of [index.ts] is a JavaScript object graph in which every node is
    referenced exactly once (by its parent, or by the [tree] variable of the
    handle), so the in-place updates [node.left = ...], [node.val = ...],
    [node.height = ...] are rendered as functional updates of an inductive
    tree.

    JavaScript values live in one dynamic universe [V]: stored values, keys
    and the search argument of [remove] are all of that type, exactly as the
    untyped run-time sees them, and a key function is a function [V -> V].
    The relational operator [a < b] is [lt], [a > b] is [lt] with its
    operands swapped, and [a === b] is [seq].  What the properties need of
    these operators is stated where it is needed: asymmetry of [<] for the
    balance invariant, a strict weak order for the order of the traversal,
    a total order with [===] as its equality for the results on lookup.
    Numbers are integers ([Z]) in the concrete runs.

    An access through an absent node ([node!.right], [right!.left],
    [node!.left!.val], [temp!.val] on [undefined]) raises a [TypeError] in
    JavaScript; here it is the result [None].  The [height] field is a
    JavaScript number that only ever holds small integers; it is a [Z].
    A generator is rendered by the list of the values it yields. *)

From Stdlib Require Import ZArith List Lia Bool Sorted Permutation.
Import ListNotations.
Open Scope Z_scope.

Set Implicit Arguments.

#[local] Arguments Z.add : simpl never.
#[local] Arguments Z.sub : simpl never.
#[local] Arguments Z.max : simpl never.

(** ** A small error monad for the thrown [TypeError] *)

Definition bind {A B : Type} (m : option A) (f : A -> option B) : option B :=
  match m with
  | Some a => f a
  | None => None
  end.

Notation "x <- m ;; k" := (bind m (fun x => k))
  (at level 61, m at next level, right associativity).

(** ** Nodes, heights, traversals (index.ts lines 1-53, 114-120) *)

Section Core.

Variable V : Type.
Variable lt : V -> V -> bool.
Variable seq : V -> V -> bool.

(** [a > b] is evaluated by JavaScript as [b < a]. *)
Definition gt (a b : V) : bool := lt b a.

(** The fields [left] and [right] are written [left_] and [right_]: the
    plain names are constructors of the standard library. *)
Inductive AVLNode : Type :=
| undefined : AVLNode
| Node (val : V) (left_ right_ : AVLNode) (height : Z) : AVLNode.

Definition height (node : AVLNode) : Z :=
  match node with
  | undefined => 0
  | Node _ _ _ h => h
  end.

Definition createNode (val : V) (left_ right_ : AVLNode) : AVLNode :=
  Node val left_ right_ (1 + Z.max (height left_) (height right_)).

(** The generators are rendered by the finite list of values they yield. *)
Fixpoint traverse (node : AVLNode) : list V :=
  match node with
  | undefined => []
  | Node val left_ right_ _ =>
      (match left_ with undefined => [] | Node _ _ _ _ => traverse left_ end)
        ++ val ::
      (match right_ with undefined => [] | Node _ _ _ _ => traverse right_ end)
  end.

Fixpoint traverseReversed (node : AVLNode) : list V :=
  match node with
  | undefined => []
  | Node val left_ right_ _ =>
      (match right_ with undefined => [] | Node _ _ _ _ => traverseReversed right_ end)
        ++ val ::
      (match left_ with undefined => [] | Node _ _ _ _ => traverseReversed left_ end)
  end.

(** ** Balance factor and rotations (lines 80-85, 122-144) *)

Definition balanceFactor (node : AVLNode) : Z :=
  match node with
  | undefined => 0
  | Node _ left_ right_ _ => height left_ - height right_
  end.

Definition leftRotate (node : AVLNode) : option AVLNode :=
  match node with
  | undefined => None
  | Node nval nleft right_ _ =>
      match right_ with
      | undefined => None
      | Node rval rightLeft rright _ =>
          let node' :=
            Node nval nleft rightLeft
                 (1 + Z.max (height nleft) (height rightLeft)) in
          Some (Node rval node' rright
                     (1 + Z.max (height node') (height rright)))
      end
  end.

Definition rightRotate (node : AVLNode) : option AVLNode :=
  match node with
  | undefined => None
  | Node nval left_ nright _ =>
      match left_ with
      | undefined => None
      | Node lval lleft leftRight _ =>
          let node' :=
            Node nval leftRight nright
                 (1 + Z.max (height leftRight) (height nright)) in
          Some (Node lval lleft node'
                     (1 + Z.max (height lleft) (height node')))
      end
  end.

(** ** Insertion (lines 55-112) *)

Definition balanceAfterInsert (node : AVLNode) (inserted : V) (key : V -> V)
  : option AVLNode :=
  match node with
  | undefined => Some node
  | Node nval left_ right_ h =>
      let bf := balanceFactor node in
      if 1 <? bf then
        match left_ with
        | undefined => None
        | Node lval _ _ _ =>
            if lt (key inserted) (key lval) then rightRotate node
            else
              left' <- leftRotate left_ ;;
              rightRotate (Node nval left' right_ h)
        end
      else if bf <? -1 then
        match right_ with
        | undefined => None
        | Node rval _ _ _ =>
            if gt (key inserted) (key rval) then leftRotate node
            else
              right' <- rightRotate right_ ;;
              leftRotate (Node nval left_ right' h)
        end
      else Some node
  end.

Fixpoint insert (node : AVLNode) (val : V) (key : V -> V) : option AVLNode :=
  match node with
  | undefined => Some (createNode val undefined undefined)
  | Node nval left_ right_ _ =>
      let valKey := key val in
      let nodeKey := key nval in
      left' <- (if lt valKey nodeKey then insert left_ val key else Some left_) ;;
      right' <- (if gt valKey nodeKey then insert right_ val key else Some right_) ;;
      balanceAfterInsert
        (Node nval left' right' (1 + Z.max (height left') (height right')))
        val key
  end.

(** ** Removal (lines 146-190, 218-223) *)

Fixpoint minNodeValue (node : AVLNode) : AVLNode :=
  match node with
  | undefined => node
  | Node _ left_ _ _ =>
      match left_ with
      | undefined => node
      | Node _ _ _ _ => minNodeValue left_
      end
  end.

(** Lines 164-189 of [remove]: the height update and the rebalancing that
    follow the three descending branches. *)
Definition rebalanceAfterRemove (node : AVLNode) : option AVLNode :=
  match node with
  | undefined => Some node
  | Node nval left_ right_ _ =>
      let node1 := Node nval left_ right_ (1 + Z.max (height left_) (height right_)) in
      let bf := balanceFactor node1 in
      if 1 <? bf then
        if 0 <=? balanceFactor left_ then rightRotate node1
        else
          left' <- leftRotate left_ ;;
          rightRotate (Node nval left' right_ (1 + Z.max (height left_) (height right_)))
      else if bf <? -1 then
        if balanceFactor right_ <=? 0 then leftRotate node1
        else
          right' <- rightRotate right_ ;;
          leftRotate (Node nval left_ right' (1 + Z.max (height left_) (height right_)))
      else Some node1
  end.

Fixpoint remove (node : AVLNode) (val : V) (key : V -> V) : option AVLNode :=
  match node with
  | undefined => Some node
  | Node nval left_ right_ h =>
      let nodeKey := key nval in
      if lt val nodeKey then
        left' <- remove left_ val key ;;
        rebalanceAfterRemove (Node nval left' right_ h)
      else if gt val nodeKey then
        right' <- remove right_ val key ;;
        rebalanceAfterRemove (Node nval left_ right' h)
      else
        match left_ with
        | undefined => Some right_
        | Node _ _ _ _ =>
            match right_ with
            | undefined => Some left_
            | Node _ _ _ _ =>
                match minNodeValue right_ with
                | undefined => None
                | Node tval _ _ _ =>
                    right' <- remove right_ tval key ;;
                    rebalanceAfterRemove (Node tval left_ right' h)
                end
            end
        end
  end.

(** ** Lookup (lines 192-216) *)

Fixpoint get (node : AVLNode) (keyFn : V -> V) (key : V) : option V :=
  match node with
  | undefined => None
  | Node nval left_ right_ _ =>
      let nodeKey := keyFn nval in
      if seq key nodeKey then Some nval
      else if gt key nodeKey then get right_ keyFn key
      else if lt key nodeKey then get left_ keyFn key
      else None
  end.

(** ** The handle returned by [AVLTree] (lines 246-276)

    The closure variables [tree] and [keyFn] are the state of the handle. *)

Record Handle : Type := MkHandle { tree : AVLNode; keyFn : V -> V }.

(** What a caller may pass in [args]: a function, an iterable, or a value
    that is neither callable nor iterable.  A missing argument is a position
    past the end of the list. *)
Inductive Arg : Type :=
| ArgFunction (f : V -> V)
| ArgIterable (items : list V)
| ArgOther.

Fixpoint insertAll (tree0 : AVLNode) (items : list V) (key : V -> V)
  : option AVLNode :=
  match items with
  | [] => Some tree0
  | item :: rest =>
      tree1 <- insert tree0 item key ;;
      insertAll tree1 rest key
  end.

Definition AVLTree (args : list Arg) : option Handle :=
  let keyFn0 : V -> V := fun x => x in
  let keyFn1 :=
    match nth_error args 0 with Some (ArgFunction f) => f | _ => keyFn0 end in
  let keyFn2 :=
    match nth_error args 1 with Some (ArgFunction f) => f | _ => keyFn1 end in
  tree1 <- match nth_error args 0 with
           | Some (ArgIterable items) => insertAll undefined items keyFn2
           | _ => Some undefined
           end ;;
  Some (MkHandle tree1 keyFn2).

Definition handle_insert (h : Handle) (val : V) : option Handle :=
  tree1 <- insert (tree h) val (keyFn h) ;;
  Some (MkHandle tree1 (keyFn h)).

Definition handle_get (h : Handle) (val : V) : option V :=
  get (tree h) (keyFn h) val.

Definition handle_remove (h : Handle) (val : V) : option Handle :=
  tree1 <- remove (tree h) val (keyFn h) ;;
  Some (MkHandle tree1 (keyFn h)).

Definition handle_iterator (h : Handle) : list V := traverse (tree h).

Definition handle_reversed (h : Handle) : list V := traverseReversed (tree h).

(** A finite sequence of mutating calls on a handle. *)
Inductive Op : Type :=
| OpInsert (val : V)
| OpRemove (key : V).

Definition handle_step (h : Handle) (o : Op) : option Handle :=
  match o with
  | OpInsert val => handle_insert h val
  | OpRemove key => handle_remove h key
  end.

Fixpoint handle_run (h : Handle) (ops : list Op) : option Handle :=
  match ops with
  | [] => Some h
  | o :: rest => h1 <- handle_step h o ;; handle_run h1 rest
  end.

(** ** Invariants of the data model (spec section 3)

    [avl] is the conjunction of the balance invariant and of the correctness
    of the cached height, at every node; the heights compared are the ones
    the code reads, [height].  [depth] is the height recomputed from the
    shape alone. *)

Fixpoint avl (t : AVLNode) : Prop :=
  match t with
  | undefined => True
  | Node _ l r h =>
      avl l /\ avl r /\
      Z.abs (height l - height r) <= 1 /\
      h = 1 + Z.max (height l) (height r)
  end.

Fixpoint depth (t : AVLNode) : Z :=
  match t with
  | undefined => 0
  | Node _ l r _ => 1 + Z.max (depth l) (depth r)
  end.

(** The same invariant stated with the true heights: at every node the
    subtrees' depths differ by at most one and the cached height is the
    depth. *)
Fixpoint balanced (t : AVLNode) : Prop :=
  match t with
  | undefined => True
  | Node _ l r h =>
      balanced l /\ balanced r /\
      Z.abs (depth l - depth r) <= 1 /\
      h = 1 + Z.max (depth l) (depth r)
  end.

(** [every P t]: all the values stored in [t] satisfy [P]. *)
Fixpoint every (P : V -> Prop) (t : AVLNode) : Prop :=
  match t with
  | undefined => True
  | Node val l r _ => P val /\ every P l /\ every P r
  end.

(** The search-tree invariant, strict ([bst]) and with equal keys allowed
    ([ordered]). *)
Fixpoint bst (key : V -> V) (t : AVLNode) : Prop :=
  match t with
  | undefined => True
  | Node val l r _ =>
      every (fun y => lt (key y) (key val) = true) l /\
      every (fun y => lt (key val) (key y) = true) r /\
      bst key l /\ bst key r
  end.

Fixpoint ordered (key : V -> V) (t : AVLNode) : Prop :=
  match t with
  | undefined => True
  | Node val l r _ =>
      every (fun y => lt (key val) (key y) = false) l /\
      every (fun y => lt (key y) (key val) = false) r /\
      ordered key l /\ ordered key r
  end.

(** The shape of a subtree that an insertion of [val] has made one higher:
    the side the insertion descended into is the higher one. *)
Definition grew (key : V -> V) (val : V) (t : AVLNode) : Prop :=
  match t with
  | undefined => False
  | Node x l r _ =>
      (lt (key val) (key x) = true /\ height l = height r + 1) \/
      (lt (key x) (key val) = true /\ height r = height l + 1)
  end.

(** Order of a yielded sequence by key: [nondecreasing] lets equal keys
    follow each other, [increasing] does not. *)
Definition nondecreasing (key : V -> V) (xs : list V) : Prop :=
  StronglySorted (fun a b => lt (key b) (key a) = false) xs.

Definition increasing (key : V -> V) (xs : list V) : Prop :=
  StronglySorted (fun a b => lt (key a) (key b) = true) xs.

(** The handles a program can hold: built by [AVLTree], then mutated by any
    finite sequence of [insert] and [remove] calls. *)
Definition reachable (h : Handle) : Prop :=
  exists (args : list Arg) (ops : list Op),
    (h0 <- AVLTree args ;; handle_run h0 ops) = Some h.

End Core.

Arguments undefined {V}.

(** ** The instance used for concrete runs: integer values and keys *)

Definition zAVLTree := AVLTree Z.ltb (V := Z).
Definition zrun := handle_run Z.ltb (V := Z).
Definition zget := handle_get Z.ltb Z.eqb (V := Z).

Definition run_from (args : list (Arg Z)) (ops : list (Op Z)) : option (Handle Z) :=
  h <- zAVLTree args ;; zrun h ops.

(** A key function that is not the identity: [x => Math.floor(x / 10)]. *)
Definition tenth (x : Z) : Z := x / 10.

(** The handle that [AVLTree([5, 3, 8, 2])] returns. *)
Definition tree_5_3_8_2 : Handle Z :=
  MkHandle
    (Node 5 (Node 3 (Node 2 undefined undefined 1) undefined 2)
            (Node 8 undefined undefined 1) 3)
    (fun x => x).

(** ** Reference models for the behaviour of handles *)

Section Models.

Variable V : Type.
Variable lt : V -> V -> bool.
Variable seq : V -> V -> bool.

(** The values an identity-keyed handle is meant to hold after a call, kept
    as a list read as a set. *)
Definition set_step (xs : list V) (o : Op V) : list V :=
  match o with
  | OpInsert val => val :: xs
  | OpRemove k => filter (fun y => negb (seq y k)) xs
  end.

Definition set_run (xs : list V) (ops : list (Op V)) : list V :=
  fold_left set_step ops xs.

(** The values a program has handed over: the items of the iterable given
    to the constructor, then the arguments of the [insert] calls. *)
Definition inserted (ops : list (Op V)) : list V :=
  flat_map (fun o => match o with OpInsert val => [val] | OpRemove _ => [] end) ops.

Definition supplied (args : list (Arg V)) (ops : list (Op V)) : list V :=
  match nth_error args 0 with
  | Some (ArgIterable items) => items
  | _ => []
  end ++ inserted ops.

(** The handles that have been built and inserted into, never removed
    from. *)
Definition insert_only (h : Handle V) : Prop :=
  exists (args : list (Arg V)) (vals : list V),
    (h0 <- AVLTree lt args ;; handle_run lt h0 (map (@OpInsert V) vals)) = Some h.

End Models.

(** The handle that [AVLTree([50, 30, 80], tenth)] returns, and the handle
    it becomes after [remove(5)]. *)
Definition tree_50_30_80_tenth : Handle Z :=
  MkHandle
    (Node 50 (Node 30 undefined undefined 1) (Node 80 undefined undefined 1) 2)
    tenth.

Definition tree_80_30_80_tenth : Handle Z :=
  MkHandle
    (Node 80 (Node 30 undefined undefined 1) (Node 80 undefined undefined 1) 2)
    tenth.

(** * Properties *)

Section Traversal.

Variable V : Type.

Lemma traverse_Node (val : V) (l r : AVLNode V) (h : Z) :
  traverse (Node val l r h) = traverse l ++ val :: traverse r.
Proof. destruct l, r; reflexivity. Qed.

Lemma traverseReversed_Node (val : V) (l r : AVLNode V) (h : Z) :
  traverseReversed (Node val l r h)
  = traverseReversed r ++ val :: traverseReversed l.
Proof. destruct l, r; reflexivity. Qed.

Lemma traverseReversed_rev (t : AVLNode V) :
  traverseReversed t = rev (traverse t).
Proof.
  induction t as [|val l IHl r IHr h]; [reflexivity|].
  rewrite traverseReversed_Node, traverse_Node, IHl, IHr.
  rewrite rev_app_distr; simpl. now rewrite <- app_assoc.
Qed.

Lemma leftRotate_shape (val : V) (l : AVLNode V) (h : Z)
      (rval : V) (rl rr : AVLNode V) (rh : Z) :
  leftRotate (Node val l (Node rval rl rr rh) h)
  = Some (Node rval
               (Node val l rl (1 + Z.max (height l) (height rl)))
               rr
               (1 + Z.max (1 + Z.max (height l) (height rl)) (height rr))).
Proof. reflexivity. Qed.

Lemma rightRotate_shape (val : V) (r : AVLNode V) (h : Z)
      (lval : V) (ll lr : AVLNode V) (lh : Z) :
  rightRotate (Node val (Node lval ll lr lh) r h)
  = Some (Node lval
               ll
               (Node val lr r (1 + Z.max (height lr) (height r)))
               (1 + Z.max (height ll) (1 + Z.max (height lr) (height r)))).
Proof. reflexivity. Qed.

Lemma leftRotate_traverse (t t' : AVLNode V) :
  leftRotate t = Some t' -> traverse t' = traverse t.
Proof.
  destruct t as [|val l [|rval rl rr rh] h]; try discriminate.
  unfold leftRotate. intros [= <-]. rewrite !traverse_Node.
  rewrite <- (app_assoc (traverse l)). reflexivity.
Qed.

Lemma rightRotate_traverse (t t' : AVLNode V) :
  rightRotate t = Some t' -> traverse t' = traverse t.
Proof.
  destruct t as [|val [|lval ll lr lh] r h]; try discriminate.
  unfold rightRotate. intros [= <-]. rewrite !traverse_Node.
  rewrite <- (app_assoc (traverse ll)). reflexivity.
Qed.

End Traversal.

(** ** Balance: [insert] and [remove] keep [avl] and never throw *)

Section Balance.

Variable V : Type.
Variable lt : V -> V -> bool.
Hypothesis lt_asym : forall a b, lt a b = true -> lt b a = false.

Lemma height_nonneg (t : AVLNode V) : avl t -> 0 <= height t.
Proof.
  induction t as [|val l IHl r IHr h]; simpl; [lia|].
  intros (Hl & Hr & _ & ->). specialize (IHl Hl). lia.
Qed.

Lemma height_positive (val : V) (l r : AVLNode V) (h : Z) :
  avl (Node val l r h) -> 1 <= h.
Proof.
  simpl. intros (Hl & Hr & _ & ->).
  pose proof (height_nonneg l Hl). lia.
Qed.

Lemma avl_depth (t : AVLNode V) : avl t -> height t = depth t.
Proof.
  induction t as [|val l IHl r IHr h]; simpl; [reflexivity|].
  intros (Hl & Hr & _ & ->). now rewrite IHl, IHr.
Qed.

Lemma avl_balanced (t : AVLNode V) : avl t -> balanced t.
Proof.
  induction t as [|val l IHl r IHr h]; simpl; [trivial|].
  intros (Hl & Hr & Hb & ->).
  rewrite <- (avl_depth l Hl), <- (avl_depth r Hr). auto.
Qed.

Ltac zb :=
  repeat match goal with
         | H : (_ <? _) = true |- _ => apply Z.ltb_lt in H
         | H : (_ <? _) = false |- _ => apply Z.ltb_ge in H
         | H : (_ <=? _) = true |- _ => apply Z.leb_le in H
         | H : (_ <=? _) = false |- _ => apply Z.leb_gt in H
         end.

Ltac nonneg :=
  repeat match goal with
         | H : avl ?t |- _ =>
             lazymatch goal with
             | _ : 0 <= height t |- _ => fail
             | _ => pose proof (height_nonneg t H)
             end
         end.

Lemma insert_avl (key : V -> V) (val : V) (t : AVLNode V) :
  avl t ->
  exists t', insert lt t val key = Some t' /\ avl t' /\
             (height t' = height t \/
              height t' = height t + 1 /\ (t = undefined \/ grew lt key val t')).
Proof.
  induction t as [|x l IHl r IHr h].
  - intros _. eexists; split; [reflexivity|]. simpl. intuition lia.
  - intros (Hl & Hr & Hb & ->). specialize (IHl Hl). specialize (IHr Hr).
    cbn [insert].
    destruct (lt (key val) (key x)) eqn:Elt.
    + pose proof (lt_asym Elt) as Egt. unfold gt. rewrite Egt.
      destruct IHl as (l' & -> & Hl' & Hh). cbn [bind].
      unfold balanceAfterInsert, balanceFactor. cbn [height].
      destruct (1 <? height l' - height r) eqn:E1.
      * zb. nonneg.
        destruct Hh as [Hh | (Hh & [-> | Hg])]; [lia | simpl in *; lia |].
        destruct l' as [|lx ll lr lh]; [contradiction|].
        simpl in Hl'. destruct Hl' as (Hll & Hlr & Hlb & ->). simpl in Hh, E1.
        destruct Hg as [(Ek & Hs) | (Ek & Hs)].
        -- rewrite Ek. rewrite rightRotate_shape. eexists; split; [reflexivity|].
           nonneg. simpl. repeat split; auto; lia.
        -- rewrite (lt_asym Ek).
           destruct lr as [|lrx lrl lrr lrh]; [nonneg; simpl in *; lia|].
           simpl in Hlr. destruct Hlr as (Hlrl & Hlrr & Hlrb & ->).
           rewrite leftRotate_shape. cbn [bind]. rewrite rightRotate_shape.
           eexists; split; [reflexivity|].
           nonneg. simpl in *. repeat split; auto; lia.
      * destruct (height l' - height r <? -1) eqn:E2; zb; [lia|].
        eexists; split; [reflexivity|]. simpl.
        repeat split; auto; try lia.
        destruct Hh as [Hh | (Hh & _)]; [left; lia|].
        destruct (Z_lt_le_dec (height l) (height r)); [left; lia|].
        right; split; [lia|]. right; left. split; [assumption | lia].
    + cbn [bind]. unfold gt.
      destruct (lt (key x) (key val)) eqn:Egt.
      * destruct IHr as (r' & -> & Hr' & Hh). cbn [bind].
        unfold balanceAfterInsert, balanceFactor. cbn [height].
        destruct (1 <? height l - height r') eqn:E1; [zb; lia|].
        destruct (height l - height r' <? -1) eqn:E2.
        -- zb. nonneg.
           destruct Hh as [Hh | (Hh & [-> | Hg])]; [lia | simpl in *; lia |].
           destruct r' as [|rx rl rr rh]; [contradiction|].
           simpl in Hr'. destruct Hr' as (Hrl & Hrr & Hrb & ->). simpl in Hh, E2.
           unfold gt.
           destruct Hg as [(Ek & Hs) | (Ek & Hs)].
           ++ rewrite (lt_asym Ek).
              destruct rl as [|rlx rll rlr rlh]; [nonneg; simpl in *; lia|].
              simpl in Hrl. destruct Hrl as (Hrll & Hrlr & Hrlb & ->).
              rewrite rightRotate_shape. cbn [bind]. rewrite leftRotate_shape.
              eexists; split; [reflexivity|].
              nonneg. simpl in *. repeat split; auto; lia.
           ++ rewrite Ek. rewrite leftRotate_shape. eexists; split; [reflexivity|].
              nonneg. simpl. repeat split; auto; lia.
        -- zb. eexists; split; [reflexivity|]. simpl.
           repeat split; auto; try lia.
           destruct Hh as [Hh | (Hh & _)]; [left; lia|].
           destruct (Z_lt_le_dec (height r) (height l)); [left; lia|].
           right; split; [lia|]. right; right. split; [assumption | lia].
      * cbn [bind]. unfold balanceAfterInsert, balanceFactor. cbn [height].
        destruct (1 <? height l - height r) eqn:E1; [zb; lia|].
        destruct (height l - height r <? -1) eqn:E2; [zb; lia|].
        eexists; split; [reflexivity|]. simpl. repeat split; auto; lia.
Qed.

Lemma rebalance_avl (val : V) (l r : AVLNode V) (h : Z) :
  avl l -> avl r -> Z.abs (height l - height r) <= 2 ->
  exists t', rebalanceAfterRemove (Node val l r h) = Some t' /\ avl t' /\
             Z.max (height l) (height r) <= height t'
               <= 1 + Z.max (height l) (height r) /\
             (Z.abs (height l - height r) <= 1 ->
              height t' = 1 + Z.max (height l) (height r)).
Proof.
  intros Hl Hr Hb. unfold rebalanceAfterRemove, balanceFactor. cbn [height].
  destruct (1 <? height l - height r) eqn:E1.
  - zb. nonneg.
    destruct l as [|lx ll lr lh]; [simpl in *; lia|].
    simpl in Hl. destruct Hl as (Hll & Hlr & Hlb & ->). cbn [height] in *.
    destruct (0 <=? height ll - height lr) eqn:E2.
    + zb. rewrite rightRotate_shape. eexists; split; [reflexivity|].
      nonneg. simpl. repeat split; auto; lia.
    + zb. destruct lr as [|lrx lrl lrr lrh]; [nonneg; simpl in *; lia|].
      simpl in Hlr. destruct Hlr as (Hlrl & Hlrr & Hlrb & ->).
      rewrite leftRotate_shape. cbn [bind]. rewrite rightRotate_shape.
      eexists; split; [reflexivity|].
      nonneg. simpl in *. repeat split; auto; lia.
  - destruct (height l - height r <? -1) eqn:E2.
    + zb. nonneg.
      destruct r as [|rx rl rr rh]; [simpl in *; lia|].
      simpl in Hr. destruct Hr as (Hrl & Hrr & Hrb & ->). cbn [height] in *.
      destruct (height rl - height rr <=? 0) eqn:E3.
      * zb. rewrite leftRotate_shape. eexists; split; [reflexivity|].
        nonneg. simpl. repeat split; auto; lia.
      * zb. destruct rl as [|rlx rll rlr rlh]; [nonneg; simpl in *; lia|].
        simpl in Hrl. destruct Hrl as (Hrll & Hrlr & Hrlb & ->).
        rewrite rightRotate_shape. cbn [bind]. rewrite leftRotate_shape.
        eexists; split; [reflexivity|].
        nonneg. simpl in *. repeat split; auto; lia.
    + zb. eexists; split; [reflexivity|]. simpl. repeat split; auto; lia.
Qed.

Lemma minNodeValue_defined (val : V) (l r : AVLNode V) (h : Z) :
  exists tval tl tr th, minNodeValue (Node val l r h) = Node tval tl tr th.
Proof.
  revert val r h. induction l as [|lx ll IHll lr _ lh]; intros val r h.
  - simpl. eauto.
  - cbn [minNodeValue]. apply IHll.
Qed.

Lemma remove_avl (key : V -> V) (t : AVLNode V) :
  avl t ->
  forall q : V,
  exists t', remove lt t q key = Some t' /\ avl t' /\
             height t - 1 <= height t' <= height t.
Proof.
  induction t as [|x l IHl r IHr h].
  - intros _ q. eexists; split; [reflexivity|]. simpl. split; [exact I | lia].
  - intros (Hl & Hr & Hb & ->) q.
    specialize (IHl Hl). specialize (IHr Hr).
    cbn [remove height].
    destruct (lt q (key x)) eqn:Elt; [|destruct (gt lt q (key x)) eqn:Egt].
    + destruct (IHl q) as (l' & -> & Hl' & Hh). cbn [bind].
      destruct (@rebalance_avl x l' r (1 + Z.max (height l) (height r)) Hl' Hr)
        as (t' & -> & Ht' & Hht & Heq); [lia|].
      exists t'. repeat split; auto; lia.
    + destruct (IHr q) as (r' & -> & Hr' & Hh). cbn [bind].
      destruct (@rebalance_avl x l r' (1 + Z.max (height l) (height r)) Hl Hr')
        as (t' & -> & Ht' & Hht & Heq); [lia|].
      exists t'. repeat split; auto; lia.
    + destruct l as [|lx ll lr lh].
      { clear IHl IHr. exists r. split; [reflexivity|]. split; [assumption|].
        nonneg. simpl in *. lia. }
      destruct r as [|rx rl rr rh].
      { clear IHl IHr. eexists; split; [reflexivity|]. split; [assumption|].
        nonneg. simpl in *. lia. }
      destruct (minNodeValue_defined rx rl rr rh) as (tval & tl & tr & th & ->).
      destruct (IHr tval) as (r' & -> & Hr' & Hh). cbn [bind].
      destruct (@rebalance_avl tval (Node lx ll lr lh) r'
                  (1 + Z.max (height (Node lx ll lr lh)) (height (Node rx rl rr rh)))
                  Hl Hr')
        as (t' & -> & Ht' & Hht & Heq); [lia|].
      exists t'. repeat split; auto; lia.
Qed.

End Balance.

(** ** Order: the in-order sequence and the weak search-tree invariant *)

Section Order.

Variable V : Type.
Variable lt : V -> V -> bool.

Lemma every_In (P : V -> Prop) (t : AVLNode V) :
  every P t <-> forall y, In y (traverse t) -> P y.
Proof.
  induction t as [|val l IHl r IHr h].
  - simpl. split; [intros _ y [] | trivial].
  - cbn [every]. rewrite traverse_Node, IHl, IHr. split.
    + intros (Hv & Hl & Hr) y Hy. apply in_app_iff in Hy.
      destruct Hy as [Hy | [<- | Hy]]; auto.
    + intros H. repeat split; intros; apply H; apply in_app_iff; simpl; auto.
Qed.

Lemma balanceAfterInsert_traverse (key : V -> V) (val : V) (t t' : AVLNode V) :
  balanceAfterInsert lt t val key = Some t' -> traverse t' = traverse t.
Proof.
  destruct t as [|x l r h]; [now intros [= <-]|].
  unfold balanceAfterInsert.
  destruct (1 <? balanceFactor (Node x l r h)).
  - destruct l as [|lx ll lr lh]; [discriminate|].
    destruct (lt (key val) (key lx)); [apply rightRotate_traverse|].
    destruct (leftRotate (Node lx ll lr lh)) as [l'|] eqn:El; [|discriminate].
    cbn [bind]. intros Hr. apply rightRotate_traverse in Hr.
    apply leftRotate_traverse in El.
    rewrite Hr, !traverse_Node, El, traverse_Node. reflexivity.
  - destruct (balanceFactor (Node x l r h) <? -1); [|now intros [= <-]].
    destruct r as [|rx rl rr rh]; [discriminate|].
    destruct (gt lt (key val) (key rx)); [apply leftRotate_traverse|].
    destruct (rightRotate (Node rx rl rr rh)) as [r'|] eqn:Er; [|discriminate].
    cbn [bind]. intros Hl. apply leftRotate_traverse in Hl.
    apply rightRotate_traverse in Er.
    rewrite Hl, !traverse_Node, Er, traverse_Node. reflexivity.
Qed.

Lemma rebalanceAfterRemove_traverse (t t' : AVLNode V) :
  rebalanceAfterRemove t = Some t' -> traverse t' = traverse t.
Proof.
  destruct t as [|x l r h]; [now intros [= <-]|].
  unfold rebalanceAfterRemove.
  match goal with |- context [1 <? ?b] => destruct (1 <? b) end.
  - destruct (0 <=? balanceFactor l).
    + intros H. apply rightRotate_traverse in H.
      rewrite H, !traverse_Node. reflexivity.
    + destruct (leftRotate l) as [l'|] eqn:El; [|discriminate].
      cbn [bind]. intros Hr. apply rightRotate_traverse in Hr.
      apply leftRotate_traverse in El.
      rewrite Hr, !traverse_Node, El. reflexivity.
  - match goal with |- context [?b <? -1] => destruct (b <? -1) end.
    + destruct (balanceFactor r <=? 0).
      * intros H. apply leftRotate_traverse in H.
        rewrite H, !traverse_Node. reflexivity.
      * destruct (rightRotate r) as [r'|] eqn:Er; [|discriminate].
        cbn [bind]. intros Hl. apply leftRotate_traverse in Hl.
        apply rightRotate_traverse in Er.
        rewrite Hl, !traverse_Node, Er. reflexivity.
    + intros [= <-]. rewrite !traverse_Node. reflexivity.
Qed.

Lemma insert_In (key : V -> V) (val : V) (t t' : AVLNode V) :
  insert lt t val key = Some t' ->
  forall y, In y (traverse t') -> y = val \/ In y (traverse t).
Proof.
  revert t'. induction t as [|x l IHl r IHr h]; intros t'.
  - intros [= <-] y [<- | []]. now left.
  - cbn [insert].
    destruct (if lt (key val) (key x) then insert lt l val key else Some l)
      as [l'|] eqn:El; [|discriminate].
    cbn [bind].
    destruct (if gt lt (key val) (key x) then insert lt r val key else Some r)
      as [r'|] eqn:Er; [|discriminate].
    cbn [bind]. intros Hb y Hy.
    rewrite (balanceAfterInsert_traverse _ _ _ Hb) in Hy.
    rewrite traverse_Node in *.
    assert (Hl : forall y, In y (traverse l') -> y = val \/ In y (traverse l)).
    { destruct (lt (key val) (key x)); [now apply IHl|].
      injection El as <-. auto. }
    assert (Hr : forall y, In y (traverse r') -> y = val \/ In y (traverse r)).
    { destruct (gt lt (key val) (key x)); [now apply IHr|].
      injection Er as <-. auto. }
    apply in_app_iff in Hy. destruct Hy as [Hy | [<- | Hy]].
    + destruct (Hl _ Hy); [now left | right; apply in_app_iff; now left].
    + right. apply in_app_iff. right. now left.
    + destruct (Hr _ Hy); [now left | right; apply in_app_iff; right; now right].
Qed.

Lemma minNodeValue_In (t : AVLNode V) (tval : V) (tl tr : AVLNode V) (th : Z) :
  minNodeValue t = Node tval tl tr th -> In tval (traverse t).
Proof.
  induction t as [|x l IHl r _ h]; [discriminate|].
  rewrite traverse_Node. destruct l as [|lx ll lr lh].
  - intros [= -> _ _ _]. now left.
  - cbn [minNodeValue]. intros H. apply in_app_iff. left. now apply IHl.
Qed.

Lemma remove_In (key : V -> V) (t : AVLNode V) :
  forall (q : V) (t' : AVLNode V),
  remove lt t q key = Some t' ->
  forall y, In y (traverse t') -> In y (traverse t).
Proof.
  induction t as [|x l IHl r IHr h]; intros q t'.
  - now intros [= <-].
  - cbn [remove]. rewrite traverse_Node.
    destruct (lt q (key x)); [|destruct (gt lt q (key x))].
    + destruct (remove lt l q key) as [l'|] eqn:El; [|discriminate].
      cbn [bind]. intros Hb y Hy.
      rewrite (rebalanceAfterRemove_traverse _ Hb), traverse_Node in Hy.
      apply in_app_iff in Hy. apply in_app_iff.
      destruct Hy as [Hy | Hy]; [left; eapply IHl; eauto | now right].
    + destruct (remove lt r q key) as [r'|] eqn:Er; [|discriminate].
      cbn [bind]. intros Hb y Hy.
      rewrite (rebalanceAfterRemove_traverse _ Hb), traverse_Node in Hy.
      apply in_app_iff in Hy. apply in_app_iff.
      destruct Hy as [Hy | [<- | Hy]];
        [now left | right; now left | right; right; eapply IHr; eauto].
    + destruct l as [|lx ll lr lh].
      { intros [= <-] y Hy. apply in_app_iff. right. now right. }
      destruct r as [|rx rl rr rh].
      { intros [= <-] y Hy. apply in_app_iff. now left. }
      destruct (minNodeValue (Node rx rl rr rh)) as [|tval tl tr th] eqn:Em;
        [discriminate|].
      destruct (remove lt (Node rx rl rr rh) tval key) as [r'|] eqn:Er;
        [|discriminate].
      cbn [bind]. intros Hb y Hy.
      rewrite (rebalanceAfterRemove_traverse _ Hb), traverse_Node in Hy.
      apply in_app_iff in Hy. apply in_app_iff.
      destruct Hy as [Hy | [<- | Hy]].
      * now left.
      * right; right. eapply minNodeValue_In; eauto.
      * right; right. eapply IHr; eauto.
Qed.

Lemma minNodeValue_head (t : AVLNode V) (tval : V) (tl tr : AVLNode V) (th : Z) :
  minNodeValue t = Node tval tl tr th ->
  exists rest, traverse t = tval :: rest.
Proof.
  induction t as [|x l IHl r _ h]; [discriminate|].
  rewrite traverse_Node. destruct l as [|lx ll lr lh].
  - intros [= -> _ _ _]. simpl. eauto.
  - cbn [minNodeValue]. intros H. destruct (IHl H) as (rest & ->).
    simpl. eauto.
Qed.

Lemma StronglySorted_app (R : V -> V -> Prop) (xs ys : list V) :
  StronglySorted R (xs ++ ys) <->
  StronglySorted R xs /\ StronglySorted R ys /\
  (forall a b, In a xs -> In b ys -> R a b).
Proof.
  induction xs as [|x xs IH]; simpl.
  - split; [intros H; repeat split; [constructor | assumption | intros ? ? []]
           | now intros (_ & H & _)].
  - split.
    + intros H. apply StronglySorted_inv in H. destruct H as (Hs & Hf).
      apply IH in Hs. destruct Hs as (Hxs & Hys & Hc).
      rewrite Forall_app in Hf. destruct Hf as (Hf1 & Hf2).
      repeat split; [now constructor | assumption |].
      intros a b [<- | Ha] Hb; [|now apply Hc].
      rewrite Forall_forall in Hf2. now apply Hf2.
    + intros (Hxs & Hys & Hc).
      apply StronglySorted_inv in Hxs. destruct Hxs as (Hxs & Hf).
      constructor.
      * apply IH. repeat split; auto.
      * apply Forall_app. split; [assumption|].
        apply Forall_forall. intros b Hb. apply Hc; auto.
Qed.

Hypothesis lt_asym : forall a b, lt a b = true -> lt b a = false.
Hypothesis lt_negtrans :
  forall a b c, lt a b = false -> lt b c = false -> lt a c = false.

Lemma lt_irrefl (a : V) : lt a a = false.
Proof.
  destruct (lt a a) eqn:E; [|reflexivity].
  pose proof (lt_asym E) as E'. congruence.
Qed.

Lemma ordered_nondecreasing (key : V -> V) (t : AVLNode V) :
  ordered lt key t <-> nondecreasing lt key (traverse t).
Proof.
  unfold nondecreasing.
  induction t as [|x l IHl r IHr h]; [simpl; split; [constructor | trivial]|].
  cbn [ordered]. rewrite traverse_Node, StronglySorted_app, IHl, IHr, !every_In.
  split.
  - intros (Hl & Hr & Sl & Sr). repeat split; [assumption | |].
    + constructor; [assumption|]. now apply Forall_forall.
    + intros a b Ha [<- | Hb]; [now apply Hl|].
      apply lt_negtrans with (b := key x); [now apply Hr | now apply Hl].
  - intros (Sl & Sx & Hc). apply StronglySorted_inv in Sx.
    destruct Sx as (Sr & Hf). rewrite Forall_forall in Hf.
    repeat split; auto. intros y Hy. apply Hc; simpl; auto.
Qed.

Lemma ordered_height (key : V -> V) (x : V) (l r : AVLNode V) (h h' : Z) :
  ordered lt key (Node x l r h) -> ordered lt key (Node x l r h').
Proof. trivial. Qed.

Lemma insert_ordered (key : V -> V) (val : V) (t t' : AVLNode V) :
  ordered lt key t -> insert lt t val key = Some t' -> ordered lt key t'.
Proof.
  revert t'. induction t as [|x l IHl r IHr h]; intros t' Ho.
  - intros [= <-]. simpl. auto.
  - cbn [insert]. destruct Ho as (Hl & Hr & Ol & Or).
    destruct (if lt (key val) (key x) then insert lt l val key else Some l)
      as [l'|] eqn:El; [|discriminate].
    cbn [bind].
    destruct (if gt lt (key val) (key x) then insert lt r val key else Some r)
      as [r'|] eqn:Er; [|discriminate].
    cbn [bind]. intros Hb.
    apply ordered_nondecreasing.
    rewrite (balanceAfterInsert_traverse _ _ _ Hb).
    apply ordered_nondecreasing. cbn [ordered].
    rewrite every_In in Hl, Hr. rewrite !every_In.
    unfold gt in Er.
    destruct (lt (key val) (key x)) eqn:Elt;
      destruct (lt (key x) (key val)) eqn:Egt;
      try (injection El as <-); try (injection Er as <-).
    + pose proof (lt_asym Elt). congruence.
    + repeat split; auto.
      intros y Hy. destruct (insert_In _ _ _ El _ Hy) as [-> | Hy']; auto.
    + repeat split; auto.
      intros y Hy. destruct (insert_In _ _ _ Er _ Hy) as [-> | Hy']; auto.
    + repeat split; auto.
Qed.

Lemma remove_ordered (key : V -> V) (t : AVLNode V) :
  forall (q : V) (t' : AVLNode V),
  ordered lt key t -> remove lt t q key = Some t' -> ordered lt key t'.
Proof.
  induction t as [|x l IHl r IHr h]; intros q t' Ho.
  - intros [= <-]. exact I.
  - cbn [remove]. destruct Ho as (Hl & Hr & Ol & Or).
    destruct (lt q (key x)); [|destruct (gt lt q (key x))].
    + destruct (remove lt l q key) as [l'|] eqn:El; [|discriminate].
      cbn [bind]. intros Hb.
      apply ordered_nondecreasing. rewrite (rebalanceAfterRemove_traverse _ Hb).
      apply ordered_nondecreasing. cbn [ordered].
      rewrite every_In in Hl. rewrite every_In.
      repeat split; eauto using remove_In.
    + destruct (remove lt r q key) as [r'|] eqn:Er; [|discriminate].
      cbn [bind]. intros Hb.
      apply ordered_nondecreasing. rewrite (rebalanceAfterRemove_traverse _ Hb).
      apply ordered_nondecreasing. cbn [ordered].
      rewrite every_In in Hr. rewrite (every_In _ r').
      repeat split; eauto using remove_In.
    + destruct l as [|lx ll lr lh]; [now intros [= <-]|].
      destruct r as [|rx rl rr rh]; [now intros [= <-]|].
      remember (Node lx ll lr lh) as L eqn:EL.
      remember (Node rx rl rr rh) as R eqn:ER.
      destruct (minNodeValue R) as [|tval tl tr th] eqn:Em; [discriminate|].
      destruct (remove lt R tval key) as [r'|] eqn:Er; [|discriminate].
      cbn [bind]. intros Hb.
      apply ordered_nondecreasing. rewrite (rebalanceAfterRemove_traverse _ Hb).
      apply ordered_nondecreasing. cbn [ordered].
      rewrite every_In in Hl, Hr. rewrite !every_In.
      pose proof (minNodeValue_In _ Em) as Hin.
      destruct (minNodeValue_head _ Em) as (rest & Hrest).
      pose proof Or as Sr. apply ordered_nondecreasing in Sr.
      unfold nondecreasing in Sr. rewrite Hrest in Sr.
      apply StronglySorted_inv in Sr.
      destruct Sr as (_ & Hf). rewrite Forall_forall in Hf.
      split; [|split; [|split; [assumption | eauto]]].
      * intros y Hy. apply lt_negtrans with (b := key x); auto.
      * intros y Hy. pose proof (remove_In _ _ _ Er _ Hy) as Hy'.
        rewrite Hrest in Hy'. destruct Hy' as [<- | Hy']; auto using lt_irrefl.
Qed.

End Order.

(** ** Handles: what every reachable handle satisfies *)

Section Handles.

Variable V : Type.
Variable lt : V -> V -> bool.

(** An invariant of the tree that the empty tree has and that [insert] and
    [remove] both re-establish, without throwing, holds of every handle a
    program can reach; no sequence of calls throws. *)
Lemma reachable_invariant (Inv : (V -> V) -> AVLNode V -> Prop) :
  (forall key, Inv key undefined) ->
  (forall key t val, Inv key t ->
     exists t', insert lt t val key = Some t' /\ Inv key t') ->
  (forall key t q, Inv key t ->
     exists t', remove lt t q key = Some t' /\ Inv key t') ->
  forall (args : list (Arg V)) (ops : list (Op V)),
  exists h, (h0 <- AVLTree lt args ;; handle_run lt h0 ops) = Some h /\
            Inv (keyFn h) (tree h).
Proof.
  intros Hempty Hins Hrem args ops.
  assert (Hall : forall key items t, Inv key t ->
            exists t', insertAll lt t items key = Some t' /\ Inv key t').
  { intros key items. induction items as [|item rest IH]; intros t Ht.
    - exists t. now split.
    - cbn [insertAll]. destruct (Hins key t item Ht) as (t1 & -> & Ht1).
      cbn [bind]. now apply IH. }
  assert (Hnew : exists h0, AVLTree lt args = Some h0 /\ Inv (keyFn h0) (tree h0)).
  { unfold AVLTree.
    set (keyFn2 := match nth_error args 1 with
                   | Some (ArgFunction f) => f
                   | _ => _
                   end).
    destruct (nth_error args 0) as [[f | items |] |];
      try (eexists; split; [reflexivity | apply Hempty]).
    destruct (Hall keyFn2 items undefined (Hempty _)) as (t' & -> & Ht').
    eexists; split; [reflexivity | exact Ht']. }
  destruct Hnew as (h0 & -> & Hh0). cbn [bind].
  revert h0 Hh0. induction ops as [|o rest IH]; intros h0 Hh0.
  - exists h0. now split.
  - cbn [handle_run]. destruct h0 as [t key]. cbn [tree keyFn] in Hh0.
    destruct o as [val | q]; cbn [handle_step].
    + unfold handle_insert. cbn [tree keyFn].
      destruct (Hins key t val Hh0) as (t' & -> & Ht'). cbn [bind].
      now apply IH.
    + unfold handle_remove. cbn [tree keyFn].
      destruct (Hrem key t q Hh0) as (t' & -> & Ht'). cbn [bind].
      now apply IH.
Qed.

Hypothesis lt_asym : forall a b, lt a b = true -> lt b a = false.

Lemma reachable_avl (h : Handle V) : reachable lt h -> avl (tree h).
Proof.
  intros (args & ops & Hrun).
  destruct (@reachable_invariant (fun _ t => avl t)) with (args := args) (ops := ops)
    as (h' & Hrun' & Hinv).
  - intros key. exact I.
  - intros key t val Ht.
    destruct (insert_avl lt lt_asym key val t Ht) as (t' & E & Ht' & _). eauto.
  - intros key t q Ht.
    destruct (remove_avl lt key t Ht q) as (t' & E & Ht' & _). eauto.
  - congruence.
Qed.

Hypothesis lt_negtrans :
  forall a b c, lt a b = false -> lt b c = false -> lt a c = false.

Lemma reachable_ordered (h : Handle V) :
  reachable lt h -> ordered lt (keyFn h) (tree h).
Proof.
  intros (args & ops & Hrun).
  destruct (@reachable_invariant (fun key t => avl t /\ ordered lt key t))
    with (args := args) (ops := ops) as (h' & Hrun' & Hinv).
  - intros key. split; exact I.
  - intros key t val (Ht & Ho).
    destruct (insert_avl lt lt_asym key val t Ht) as (t' & E & Ht' & _).
    exists t'. repeat split; auto.
    eapply (insert_ordered lt lt_asym lt_negtrans); eauto.
  - intros key t q (Ht & Ho).
    destruct (remove_avl lt key t Ht q) as (t' & E & Ht' & _).
    exists t'. repeat split; auto.
    eapply (remove_ordered lt lt_asym lt_negtrans); eauto.
  - assert (h' = h) as <- by congruence. apply Hinv.
Qed.

(** Inserting under a key that the tree already holds returns the very same
    tree. *)
Lemma insert_duplicate (key : V -> V) (val y : V) (t : AVLNode V) :
  avl t -> ordered lt key t ->
  In y (traverse t) -> key y = key val ->
  insert lt t val key = Some t.
Proof.
  intros Ha Ho Hy Hk. induction t as [|x l IHl r IHr h]; [destruct Hy|].
  destruct Ha as (Hl & Hr & Hb & ->). destruct Ho as (Hel & Her & Ol & Or).
  rewrite every_In in Hel, Her.
  rewrite traverse_Node in Hy. apply in_app_iff in Hy.
  assert (Hbal : balanceAfterInsert lt
                   (Node x l r (1 + Z.max (height l) (height r))) val key
                 = Some (Node x l r (1 + Z.max (height l) (height r)))).
  { unfold balanceAfterInsert, balanceFactor.
    destruct (1 <? height l - height r) eqn:E1; [apply Z.ltb_lt in E1; lia|].
    destruct (height l - height r <? -1) eqn:E2; [apply Z.ltb_lt in E2; lia|].
    reflexivity. }
  cbn [insert]. unfold gt.
  destruct (lt (key val) (key x)) eqn:Elt.
  - rewrite (lt_asym Elt).
    destruct Hy as [Hy | [<- | Hy]].
    + rewrite (IHl Hl Ol Hy). cbn [bind]. exact Hbal.
    + rewrite Hk, (lt_irrefl lt lt_asym) in Elt. discriminate.
    + apply Her in Hy. congruence.
  - destruct (lt (key x) (key val)) eqn:Egt.
    + destruct Hy as [Hy | [<- | Hy]].
      * apply Hel in Hy. congruence.
      * rewrite Hk, (lt_irrefl lt lt_asym) in Egt. discriminate.
      * rewrite (IHr Hr Or Hy). cbn [bind]. exact Hbal.
    + cbn [bind]. exact Hbal.
Qed.

End Handles.

(** ** Identity keys: the tree as a set of comparable values

    When the key function is the identity, the value that [remove] passes to
    its recursive call is the successor's key, and the strict search-tree
    invariant is kept.  The order is assumed total here. *)

Section IdentityKey.

Variable V : Type.
Variable lt : V -> V -> bool.
Variable seq : V -> V -> bool.

Hypothesis lt_asym : forall a b, lt a b = true -> lt b a = false.
Hypothesis lt_negtrans :
  forall a b c, lt a b = false -> lt b c = false -> lt a c = false.
Hypothesis lt_connected : forall a b, lt a b = false -> lt b a = false -> a = b.
Hypothesis seq_spec : forall a b, seq a b = true <-> a = b.

Variable key : V -> V.
Hypothesis key_id : forall v, key v = v.

Lemma lt_trans (a b c : V) : lt a b = true -> lt b c = true -> lt a c = true.
Proof.
  intros Hab Hbc. destruct (lt a c) eqn:E; [reflexivity|].
  pose proof (lt_negtrans E (lt_asym Hbc)). congruence.
Qed.

Lemma bst_increasing (t : AVLNode V) :
  bst lt key t <-> increasing lt key (traverse t).
Proof.
  unfold increasing.
  induction t as [|x l IHl r IHr h]; [simpl; split; [constructor | trivial]|].
  cbn [bst]. rewrite traverse_Node, StronglySorted_app, IHl, IHr, !every_In.
  split.
  - intros (Hl & Hr & Sl & Sr). repeat split; [assumption | |].
    + constructor; [assumption|]. now apply Forall_forall.
    + intros a b Ha [<- | Hb]; [now apply Hl|].
      apply lt_trans with (b := key x); [now apply Hl | now apply Hr].
  - intros (Sl & Sx & Hc). apply StronglySorted_inv in Sx.
    destruct Sx as (Sr & Hf). rewrite Forall_forall in Hf.
    repeat split; auto. intros y Hy. apply Hc; simpl; auto.
Qed.

Lemma insert_bst (val : V) (t t' : AVLNode V) :
  bst lt key t -> insert lt t val key = Some t' ->
  bst lt key t' /\
  (forall y, In y (traverse t') <-> y = val \/ In y (traverse t)).
Proof.
  revert t'. induction t as [|x l IHl r IHr h]; intros t' Hb.
  - intros [= <-]. split; [simpl; auto|]. simpl. intuition.
  - cbn [insert]. destruct Hb as (Hl & Hr & Bl & Br).
    destruct (if lt (key val) (key x) then insert lt l val key else Some l)
      as [l'|] eqn:El; [|discriminate].
    cbn [bind].
    destruct (if gt lt (key val) (key x) then insert lt r val key else Some r)
      as [r'|] eqn:Er; [|discriminate].
    cbn [bind]. intros Hbal.
    pose proof (balanceAfterInsert_traverse _ _ _ _ Hbal) as Ht.
    match type of Ht with
    | _ = traverse ?n =>
        enough (HH : bst lt key n /\
                     (forall y, In y (traverse n) <-> y = val \/
                                In y (traverse (Node x l r h))))
    end.
    { destruct HH as (HB & HI). split.
      - apply bst_increasing. rewrite Ht. now apply bst_increasing.
      - intros y. rewrite Ht. apply HI. }
    clear Hbal Ht. cbn [bst]. rewrite !traverse_Node.
    rewrite every_In in Hl, Hr. rewrite !every_In.
    unfold gt in Er.
    destruct (lt (key val) (key x)) eqn:Elt;
      destruct (lt (key x) (key val)) eqn:Egt;
      try (injection El as <-); try (injection Er as <-).
    + pose proof (lt_asym Elt). congruence.
    + destruct (IHl _ Bl El) as (Bl' & Hin). split.
      * repeat split; auto. intros y Hy. apply Hin in Hy.
        destruct Hy as [-> | Hy]; auto.
      * intros y. rewrite !in_app_iff, Hin. simpl. tauto.
    + destruct (IHr _ Br Er) as (Br' & Hin). split.
      * repeat split; auto. intros y Hy. apply Hin in Hy.
        destruct Hy as [-> | Hy]; auto.
      * intros y. rewrite !in_app_iff. simpl. rewrite Hin. tauto.
    + split; [repeat split; auto|].
      assert (val = x) as -> by (rewrite <- (key_id val), <- (key_id x); auto).
      intros y. rewrite !in_app_iff. simpl. intuition.
Qed.

Lemma key_lt_irrefl (a : V) : lt (key a) a = false.
Proof. rewrite key_id. apply (lt_irrefl lt lt_asym). Qed.

Lemma remove_bst (t : AVLNode V) :
  forall (q : V) (t' : AVLNode V),
  bst lt key t -> remove lt t q key = Some t' ->
  bst lt key t' /\
  (forall y, In y (traverse t') <-> In y (traverse t) /\ y <> q).
Proof.
  induction t as [|x l IHl r IHr h]; intros q t' Hb.
  - intros [= <-]. simpl. tauto.
  - cbn [remove]. destruct Hb as (Hl & Hr & Bl & Br).
    rewrite every_In in Hl, Hr.
    assert (Hrebal : forall n,
               rebalanceAfterRemove n = Some t' ->
               bst lt key n /\
               (forall y, In y (traverse n) <->
                          In y (traverse (Node x l r h)) /\ y <> q) ->
               bst lt key t' /\
               (forall y, In y (traverse t') <->
                          In y (traverse (Node x l r h)) /\ y <> q)).
    { intros n Hn (HB & HI). pose proof (rebalanceAfterRemove_traverse _ Hn) as Ht.
      split; [apply bst_increasing; rewrite Ht; now apply bst_increasing|].
      intros y. rewrite Ht. apply HI. }
    destruct (lt q (key x)) eqn:Elt; [|destruct (gt lt q (key x)) eqn:Egt].
    + destruct (remove lt l q key) as [l'|] eqn:El; [|discriminate].
      cbn [bind]. intros Hn. apply (Hrebal _ Hn). clear Hrebal Hn.
      destruct (IHl _ _ Bl El) as (Bl' & Hin).
      cbn [bst]. rewrite !traverse_Node, every_In, (every_In _ r).
      split.
      * repeat split; auto. intros y Hy. apply Hl. now apply Hin.
      * intros y. rewrite !in_app_iff, Hin. simpl. split; [|tauto].
        intros [(Hy & Hq) | [<- | Hy]]; (split; [tauto|]); auto.
        -- intros <-. rewrite key_id, (lt_irrefl lt lt_asym) in Elt. discriminate.
        -- intros ->. apply Hr in Hy. rewrite !key_id in *.
           pose proof (lt_asym Elt). congruence.
    + destruct (remove lt r q key) as [r'|] eqn:Er; [|discriminate].
      cbn [bind]. intros Hn. apply (Hrebal _ Hn). clear Hrebal Hn.
      destruct (IHr _ _ Br Er) as (Br' & Hin). unfold gt in Egt.
      cbn [bst]. rewrite !traverse_Node, every_In, (every_In _ r').
      split.
      * repeat split; auto. intros y Hy. apply Hr. now apply Hin.
      * intros y. rewrite !in_app_iff. simpl. rewrite Hin. split; [|tauto].
        intros [Hy | [<- | (Hy & Hq)]]; (split; [tauto|]); auto.
        -- intros ->. apply Hl in Hy. rewrite !key_id in *.
           pose proof (lt_asym Egt). congruence.
        -- intros <-. rewrite key_id, (lt_irrefl lt lt_asym) in Egt. discriminate.
    + unfold gt in Egt.
      assert (q = x) as -> by (rewrite <- (key_id x); auto).
      assert (Hxl : forall y, In y (traverse l) -> y <> x).
      { intros y Hy ->. apply Hl in Hy.
        rewrite (lt_irrefl lt lt_asym) in Hy. discriminate. }
      assert (Hxr : forall y, In y (traverse r) -> y <> x).
      { intros y Hy ->. apply Hr in Hy.
        rewrite (lt_irrefl lt lt_asym) in Hy. discriminate. }
      rewrite traverse_Node in *.
      destruct l as [|lx ll lr lh].
      { intros [= <-]. split; [assumption|]. intros y. simpl.
        split; [intros Hy; split; auto | intros ([-> | Hy] & Hn); tauto]. }
      destruct r as [|rx rl rr rh].
      { intros [= <-]. split; [assumption|]. intros y.
        rewrite in_app_iff. simpl.
        split; [intros Hy; split; auto | intros ([Hy | [-> | []]] & Hn); tauto]. }
      remember (Node lx ll lr lh) as L eqn:EL.
      remember (Node rx rl rr rh) as R eqn:ER.
      destruct (minNodeValue R) as [|tval tl tr th] eqn:Em; [discriminate|].
      destruct (remove lt R tval key) as [r'|] eqn:Er; [|discriminate].
      cbn [bind]. intros Hn. apply (Hrebal _ Hn). clear Hrebal Hn.
      destruct (IHr _ _ Br Er) as (Br' & Hin).
      pose proof (minNodeValue_In _ Em) as Htin.
      destruct (minNodeValue_head _ Em) as (rest & Hrest).
      pose proof Br as Sr. apply bst_increasing in Sr. unfold increasing in Sr.
      rewrite Hrest in Sr. apply StronglySorted_inv in Sr.
      destruct Sr as (_ & Hf). rewrite Forall_forall in Hf.
      cbn [bst]. rewrite !traverse_Node, !every_In.
      split.
      * repeat split; auto.
        -- intros y Hy. apply lt_trans with (b := key x); auto.
        -- intros y Hy. apply Hin in Hy. destruct Hy as (Hy & Hne).
           rewrite Hrest in Hy. destruct Hy as [-> | Hy]; [congruence | auto].
      * intros y. rewrite !in_app_iff. simpl. rewrite Hin. split.
        -- intros [Hy | [<- | (Hy & _)]]; split; auto.
        -- intros ([Hy | [-> | Hy]] & Hne); [tauto | congruence |].
           destruct (seq y tval) eqn:Es.
           ++ apply seq_spec in Es. right; left. congruence.
           ++ right; right. split; [assumption|]. intros ->.
              assert (seq tval tval = true) by now apply seq_spec. congruence.
Qed.

Lemma get_present (k : V) (t : AVLNode V) :
  bst lt key t -> In k (traverse t) -> get lt seq t key k = Some k.
Proof.
  induction t as [|x l IHl r IHr h]; [intros _ []|].
  intros (Hl & Hr & Bl & Br) Hk. rewrite every_In in Hl, Hr.
  rewrite traverse_Node in Hk. apply in_app_iff in Hk.
  cbn [get]. rewrite !key_id in *. unfold gt.
  destruct (seq k x) eqn:Es; [apply seq_spec in Es; congruence|].
  destruct Hk as [Hk | [-> | Hk]].
  - pose proof (Hl _ Hk) as Hlt. rewrite !key_id in Hlt.
    rewrite (lt_asym Hlt), Hlt. auto.
  - assert (seq k k = true) by now apply seq_spec. congruence.
  - pose proof (Hr _ Hk) as Hlt. rewrite !key_id in Hlt. rewrite Hlt. auto.
Qed.

Lemma get_absent (k : V) (t : AVLNode V) :
  ~ In k (traverse t) -> get lt seq t key k = None.
Proof.
  induction t as [|x l IHl r IHr h]; [reflexivity|].
  rewrite traverse_Node, in_app_iff. simpl. intros Hk.
  cbn [get]. rewrite key_id.
  destruct (seq k x) eqn:Es; [apply seq_spec in Es; subst; tauto|].
  destruct (gt lt k x); [apply IHr; tauto|].
  destruct (lt k x); [apply IHl; tauto | reflexivity].
Qed.

Lemma remove_absent (q : V) (t : AVLNode V) :
  avl t -> ~ In q (traverse t) -> remove lt t q key = Some t.
Proof.
  induction t as [|x l IHl r IHr h]; [reflexivity|].
  intros (Hl & Hr & Hb & ->). rewrite traverse_Node, in_app_iff. simpl.
  intros Hq.
  assert (Hre : rebalanceAfterRemove
                  (Node x l r (1 + Z.max (height l) (height r)))
                = Some (Node x l r (1 + Z.max (height l) (height r)))).
  { unfold rebalanceAfterRemove, balanceFactor. cbn [height].
    destruct (1 <? height l - height r) eqn:E1; [apply Z.ltb_lt in E1; lia|].
    destruct (height l - height r <? -1) eqn:E2; [apply Z.ltb_lt in E2; lia|].
    reflexivity. }
  cbn [remove]. rewrite key_id. unfold gt.
  destruct (lt q x) eqn:Elt; [|destruct (lt x q) eqn:Egt].
  - rewrite IHl by tauto. exact Hre.
  - rewrite IHr by tauto. exact Hre.
  - exfalso. apply Hq. right; left. symmetry. now apply lt_connected.
Qed.

Lemma increasing_NoDup (xs : list V) : increasing lt key xs -> NoDup xs.
Proof.
  unfold increasing. induction xs as [|x xs IH]; [constructor|].
  intros H. apply StronglySorted_inv in H. destruct H as (Hs & Hf).
  constructor; [|now apply IH].
  intros Hx. rewrite Forall_forall in Hf. apply Hf in Hx.
  rewrite (lt_irrefl lt lt_asym) in Hx. discriminate.
Qed.

Lemma remove_present_length (q : V) (t t' : AVLNode V) :
  bst lt key t -> remove lt t q key = Some t' -> In q (traverse t) ->
  length (traverse t) = S (length (traverse t')).
Proof.
  intros Hb Hr Hq. destruct (@remove_bst t q t' Hb Hr) as (Hb' & Hin).
  apply bst_increasing, increasing_NoDup in Hb, Hb'.
  change (S (length (traverse t'))) with (length (q :: traverse t')).
  apply Permutation_length, NoDup_Permutation; [assumption | |].
  - constructor; [|assumption]. rewrite Hin. tauto.
  - intros y. simpl. rewrite Hin. split; [|intros [<- | H]; tauto].
    intros Hy. destruct (seq q y) eqn:Es.
    + left. now apply seq_spec.
    + right. split; [assumption|]. intros ->.
      assert (seq q q = true) by now apply seq_spec. congruence.
Qed.

End IdentityKey.

Section IdentityHandles.

Variable V : Type.
Variable lt : V -> V -> bool.
Variable seq : V -> V -> bool.

Hypothesis lt_asym : forall a b, lt a b = true -> lt b a = false.
Hypothesis lt_negtrans :
  forall a b c, lt a b = false -> lt b c = false -> lt a c = false.
Hypothesis lt_connected : forall a b, lt a b = false -> lt b a = false -> a = b.
Hypothesis seq_spec : forall a b, seq a b = true <-> a = b.

Lemma reachable_identity_bst (h : Handle V) :
  reachable lt h -> (forall v, keyFn h v = v) ->
  avl (tree h) /\ bst lt (keyFn h) (tree h).
Proof.
  intros (args & ops & Hrun) Hid.
  destruct (@reachable_invariant V lt
              (fun key t => avl t /\ ((forall v, key v = v) -> bst lt key t)))
    with (args := args) (ops := ops) as (h' & Hrun' & Hinv).
  - intros key. split; [exact I | intros _; exact I].
  - intros key t val (Ht & Hb).
    destruct (insert_avl lt lt_asym key val t Ht) as (t' & E & Ht' & _).
    exists t'. repeat split; auto. intros Hk.
    eapply (@insert_bst V lt lt_asym lt_negtrans lt_connected key Hk); eauto.
  - intros key t q (Ht & Hb).
    destruct (remove_avl lt key t Ht q) as (t' & E & Ht' & _).
    exists t'. repeat split; auto. intros Hk.
    eapply (@remove_bst V lt seq lt_asym lt_negtrans lt_connected seq_spec key Hk);
      eauto.
  - assert (h' = h) as <- by congruence. destruct Hinv as (Ha & Hb). auto.
Qed.

(** With the identity key the ascending traversal of a reachable handle is
    strictly increasing. *)
Lemma identity_key_traversal_increasing (h : Handle V) :
  reachable lt h -> (forall v, keyFn h v = v) ->
  increasing lt (keyFn h) (handle_iterator h).
Proof.
  intros Hr Hid. destruct (reachable_identity_bst Hr Hid) as (_ & Hb).
  now apply (@bst_increasing V lt lt_asym lt_negtrans (keyFn h)).
Qed.

(** With the identity key [get] is membership in the traversal. *)
Lemma identity_key_get (h : Handle V) (k : V) :
  reachable lt h -> (forall v, keyFn h v = v) ->
  (In k (handle_iterator h) -> handle_get lt seq h k = Some k) /\
  (~ In k (handle_iterator h) -> handle_get lt seq h k = None).
Proof.
  intros Hr Hid. destruct (reachable_identity_bst Hr Hid) as (_ & Hb).
  unfold handle_get, handle_iterator. split.
  - now apply (@get_present V lt seq lt_asym seq_spec (keyFn h) Hid).
  - now apply (@get_absent V lt seq seq_spec (keyFn h) Hid).
Qed.

(** With the identity key [insert] adds the value to the set of stored
    values. *)
Lemma identity_key_insert (h : Handle V) (val : V) :
  reachable lt h -> (forall v, keyFn h v = v) ->
  exists h', handle_insert lt h val = Some h' /\
             forall y, In y (handle_iterator h') <->
                       y = val \/ In y (handle_iterator h).
Proof.
  intros Hr Hid. destruct (reachable_identity_bst Hr Hid) as (Ha & Hb).
  unfold handle_insert, handle_iterator.
  destruct (insert_avl lt lt_asym (keyFn h) val (tree h) Ha) as (t' & E & _).
  rewrite E. cbn [bind]. eexists; split; [reflexivity|]. cbn [tree].
  now apply (@insert_bst V lt lt_asym lt_negtrans lt_connected (keyFn h) Hid
               val (tree h) t' Hb E).
Qed.

(** With the identity key [remove] deletes exactly the searched value: it is
    not found afterwards, the other values stay, the traversal is one shorter
    when the value was stored and the handle is unchanged when it was not. *)
Lemma identity_key_remove (h : Handle V) (k : V) :
  reachable lt h -> (forall v, keyFn h v = v) ->
  exists h', handle_remove lt h k = Some h' /\
             handle_get lt seq h' k = None /\
             (forall y, In y (handle_iterator h') <->
                        In y (handle_iterator h) /\ y <> k) /\
             (In k (handle_iterator h) ->
              length (handle_iterator h) = S (length (handle_iterator h'))) /\
             (~ In k (handle_iterator h) -> h' = h).
Proof.
  intros Hr Hid. destruct (reachable_identity_bst Hr Hid) as (Ha & Hb).
  unfold handle_remove, handle_iterator, handle_get.
  destruct (remove_avl lt (keyFn h) (tree h) Ha k) as (t' & E & _).
  rewrite E. cbn [bind]. eexists; split; [reflexivity|]. cbn [tree keyFn].
  destruct (@remove_bst V lt seq lt_asym lt_negtrans lt_connected seq_spec
              (keyFn h) Hid (tree h) k t' Hb E) as (Hb' & Hin).
  split; [|split; [|split]].
  - apply (@get_absent V lt seq seq_spec (keyFn h) Hid). rewrite Hin. tauto.
  - exact Hin.
  - intros Hk.
    now apply (@remove_present_length V lt seq lt_asym lt_negtrans lt_connected
                 seq_spec (keyFn h) Hid k (tree h) t' Hb E).
  - intros Hk.
    rewrite (@remove_absent V lt lt_connected (keyFn h) Hid k (tree h) Ha Hk) in E.
    injection E as <-. now destruct h.
Qed.

End IdentityHandles.

(** The rotations throw exactly when the child they promote is absent. *)
Lemma leftRotate_None (V : Type) (t : AVLNode V) :
  leftRotate t = None <->
  match t with Node _ _ (Node _ _ _ _) _ => False | _ => True end.
Proof. destruct t as [|x l [|rx rl rr rh] h]; simpl; intuition discriminate. Qed.

Lemma rightRotate_None (V : Type) (t : AVLNode V) :
  rightRotate t = None <->
  match t with Node _ (Node _ _ _ _) _ _ => False | _ => True end.
Proof. destruct t as [|x [|lx ll lr lh] r h]; simpl; intuition discriminate. Qed.

(** ** Integer keys: the instance of the concrete runs *)

Lemma Zltb_asym (a b : Z) : (a <? b) = true -> (b <? a) = false.
Proof. intros H. apply Z.ltb_lt in H. apply Z.ltb_ge. lia. Qed.

Lemma Zltb_negtrans (a b c : Z) :
  (a <? b) = false -> (b <? c) = false -> (a <? c) = false.
Proof. intros H1 H2. apply Z.ltb_ge in H1, H2. apply Z.ltb_ge. lia. Qed.

Lemma Zltb_connected (a b : Z) : (a <? b) = false -> (b <? a) = false -> a = b.
Proof. intros H1 H2. apply Z.ltb_ge in H1, H2. lia. Qed.

Lemma Zeqb_spec (a b : Z) : (a =? b) = true <-> a = b.
Proof. apply Z.eqb_eq. Qed.

Lemma tree_5_3_8_2_reachable : reachable Z.ltb tree_5_3_8_2.
Proof. exists [ArgIterable [5; 3; 8; 2]], []. reflexivity. Qed.

(** The scenarios of the specification's section 8, run on the model. *)

Example scenario_left_rotation :
  option_map (@tree Z) (run_from [ArgIterable [10; 20; 30]] [])
  = Some (Node 20 (Node 10 undefined undefined 1) (Node 30 undefined undefined 1) 2).
Proof. reflexivity. Qed.

Example scenario_right_rotation :
  option_map (@tree Z) (run_from [ArgIterable [30; 20; 10]] [])
  = Some (Node 20 (Node 10 undefined undefined 1) (Node 30 undefined undefined 1) 2).
Proof. reflexivity. Qed.

Example scenario_left_right_rotation :
  option_map (@handle_iterator Z) (run_from [ArgIterable [30; 10; 20]] [])
  = Some [10; 20; 30].
Proof. reflexivity. Qed.

Example scenario_remove_two_children :
  option_map (@handle_iterator Z)
             (run_from [ArgIterable [5; 3; 8; 2; 4; 7; 9]] [OpRemove 3])
  = Some [2; 4; 5; 7; 8; 9].
Proof. reflexivity. Qed.

Example scenario_remove_missing :
  option_map (@handle_iterator Z)
             (run_from [ArgIterable [5; 3; 8; 2; 4; 7; 9]] [OpRemove 6])
  = Some [2; 3; 4; 5; 7; 8; 9].
Proof. reflexivity. Qed.

Example identity_key_remove_5_3_8_2 :
  exists h', handle_remove Z.ltb tree_5_3_8_2 3 = Some h' /\
             zget h' 3 = None /\
             length (handle_iterator tree_5_3_8_2) = S (length (handle_iterator h')).
Proof.
  destruct (@identity_key_remove Z Z.ltb Z.eqb Zltb_asym Zltb_negtrans
              Zltb_connected Zeqb_spec tree_5_3_8_2 3 tree_5_3_8_2_reachable)
    as (h' & E & Hg & _ & Hlen & _); [reflexivity|].
  exists h'. repeat split; auto. apply Hlen. simpl. auto.
Qed.

(** * The claims *)

(** C1. Invariant preservation: whatever the constructor arguments and
    whatever finite sequence of [insert] and [remove] calls follows, the
    calls all return, and in the resulting tree every node has subtrees whose
    heights differ by at most one and a cached height equal to one plus the
    larger of its subtrees' heights; this holds both for the heights the
    code reads ([avl]) and for the true heights ([balanced]).  The only
    assumption is that [<] is asymmetric; the key function is arbitrary. *)
Theorem C1_invariant_preservation
        (V : Type) (lt : V -> V -> bool)
        (lt_asym : forall a b, lt a b = true -> lt b a = false)
        (args : list (Arg V)) (ops : list (Op V)) :
  exists h, (h0 <- AVLTree lt args ;; handle_run lt h0 ops) = Some h /\
            avl (tree h) /\ balanced (tree h).
Proof.
  destruct (@reachable_invariant V lt (fun _ t => avl t))
    with (args := args) (ops := ops) as (h & Hrun & Hinv).
  - intros key. exact I.
  - intros key t val Ht.
    destruct (insert_avl lt lt_asym key val t Ht) as (t' & E & Ht' & _). eauto.
  - intros key t q Ht.
    destruct (remove_avl lt key t Ht q) as (t' & E & Ht' & _). eauto.
  - exists h. repeat split; auto using avl_balanced.
Qed.

Lemma C1_invariant_preservation_witness :
  (forall a b, (a <? b) = true -> (b <? a) = false) /\
  exists h,
    (h0 <- AVLTree Z.ltb [ArgFunction tenth] ;;
     handle_run Z.ltb h0
       [OpInsert 50; OpInsert 30; OpInsert 80; OpInsert 20; OpRemove 5]) = Some h /\
    avl (tree h) /\ balanced (tree h).
Proof.
  split; [exact Zltb_asym|].
  apply (@C1_invariant_preservation Z Z.ltb Zltb_asym).
Defined.

(** C2. The ascending traversal is not always strictly increasing by key: on
    [AVLTree([50, 30, 80], tenth)] the call [remove(5)] leaves the ascending
    traversal [[30, 80, 80]], with keys [[3, 8, 8]].  The descending traversal
    is the reverse of the ascending one there, as it is on every tree
    ([traverseReversed_rev]); with the identity key the ascending traversal
    is strictly increasing ([identity_key_traversal_increasing]). *)
Theorem C2_remove_breaks_strict_order :
  exists h,
    run_from [ArgIterable [50; 30; 80]; ArgFunction tenth] [OpRemove 5] = Some h /\
    handle_iterator h = [30; 80; 80] /\
    map (keyFn h) (handle_iterator h) = [3; 8; 8] /\
    ~ increasing Z.ltb (keyFn h) (handle_iterator h) /\
    handle_reversed h = rev (handle_iterator h).
Proof.
  eexists. split; [reflexivity|]. repeat split.
  intros H. apply StronglySorted_inv in H. destruct H as (H & _).
  apply StronglySorted_inv in H. destruct H as (_ & H).
  apply Forall_inv in H. discriminate H.
Qed.

(** C3. Lookup after a removal with two children under [tenth]: on
    [AVLTree([50, 30, 80], tenth)], after [remove(5)] and [remove(8)],
    [get(8)] still returns [80]; on [AVLTree([-10, -20, 10, 1], tenth)] the
    call [remove(-1)] makes the value [10], stored under key [1] and never
    removed, disappear, and [get(1)] finds nothing afterwards.  With the
    identity key [get] is exact ([identity_key_get], [identity_key_insert],
    [identity_key_remove]). *)
Theorem C3_lookup_after_successor_splice :
  (exists h,
     run_from [ArgIterable [50; 30; 80]; ArgFunction tenth] [OpRemove 5; OpRemove 8]
     = Some h /\
     zget h 8 = Some 80) /\
  (exists h,
     run_from [ArgIterable [-10; -20; 10; 1]; ArgFunction tenth] [] = Some h /\
     zget h 1 = Some 10) /\
  (exists h,
     run_from [ArgIterable [-10; -20; 10; 1]; ArgFunction tenth] [OpRemove (-1)]
     = Some h /\
     handle_iterator h = [-20; 1; 1] /\
     zget h 1 = None).
Proof. repeat split; eexists; split; reflexivity || (split; reflexivity). Qed.

(** C4. On [AVLTree([50, 30, 80], tenth)], where key [5] is present, the call
    [remove(5)] leaves a traversal of the same length, three; a following
    [remove(8)] changes nothing and [get(8)] still returns [80].  With the
    identity key the claim holds ([identity_key_remove]). *)
Theorem C4_remove_keeps_length :
  exists h0 h1 h2,
    run_from [ArgIterable [50; 30; 80]; ArgFunction tenth] [] = Some h0 /\
    zget h0 5 = Some 50 /\
    length (handle_iterator h0) = 3%nat /\
    handle_remove Z.ltb h0 5 = Some h1 /\
    zget h1 5 = None /\
    length (handle_iterator h1) = 3%nat /\
    handle_remove Z.ltb h1 8 = Some h2 /\
    zget h2 8 = Some 80 /\
    handle_iterator h2 = handle_iterator h1.
Proof. do 3 eexists. repeat split. Qed.

(** C5. Duplicate-key insert: on every reachable handle, inserting a value
    whose key is the key of a value already stored returns normally and
    leaves the handle exactly as it was, so the stored value, every result of
    [get] and the traversal are unchanged.  The comparison is assumed to be
    a strict weak order (asymmetric, with transitive incomparability). *)
Theorem C5_duplicate_insert_is_noop
        (V : Type) (lt seq : V -> V -> bool)
        (lt_asym : forall a b, lt a b = true -> lt b a = false)
        (lt_negtrans :
           forall a b c, lt a b = false -> lt b c = false -> lt a c = false)
        (h : Handle V) (Hreach : reachable lt h)
        (val y : V) (Hy : In y (handle_iterator h))
        (Hkey : keyFn h y = keyFn h val) :
  exists h', handle_insert lt h val = Some h' /\
             h' = h /\
             (forall k, handle_get lt seq h' k = handle_get lt seq h k) /\
             handle_iterator h' = handle_iterator h /\
             length (handle_iterator h') = length (handle_iterator h).
Proof.
  exists h. repeat split.
  unfold handle_insert.
  rewrite (@insert_duplicate V lt lt_asym (keyFn h) val y (tree h)); auto.
  - now destruct h.
  - now apply (@reachable_avl V lt lt_asym).
  - now apply (@reachable_ordered V lt lt_asym lt_negtrans).
Qed.

Lemma C5_duplicate_insert_is_noop_witness :
  (forall a b, (a <? b) = true -> (b <? a) = false) /\
  (forall a b c, (a <? b) = false -> (b <? c) = false -> (a <? c) = false) /\
  reachable Z.ltb tree_5_3_8_2 /\
  In 3 (handle_iterator tree_5_3_8_2) /\
  exists h', handle_insert Z.ltb tree_5_3_8_2 3 = Some h' /\
             h' = tree_5_3_8_2 /\
             (forall k, handle_get Z.ltb Z.eqb h' k
                        = handle_get Z.ltb Z.eqb tree_5_3_8_2 k) /\
             handle_iterator h' = handle_iterator tree_5_3_8_2 /\
             length (handle_iterator h') = length (handle_iterator tree_5_3_8_2).
Proof.
  split; [exact Zltb_asym|]. split; [exact Zltb_negtrans|].
  split; [exact tree_5_3_8_2_reachable|].
  split; [simpl; auto|].
  refine (@C5_duplicate_insert_is_noop
            Z Z.ltb Z.eqb Zltb_asym Zltb_negtrans
            tree_5_3_8_2 tree_5_3_8_2_reachable 3 3 _ eq_refl).
  simpl; auto.
Defined.

(** C6. Removing a node with two children under [tenth]: the node's value is
    overwritten with the successor's value, but the recursive call searches
    for that value as if it were a key.  On the tree of
    [AVLTree([50, 30, 80], tenth)], [remove(5)] removes nothing from the
    right subtree and the successor [80] is stored twice; on the tree of
    [AVLTree([-10, -20, 10, 1], tenth)], [remove(-1)] removes the node holding
    [10] in place of the successor [1], which is stored twice. *)
Theorem C6_successor_not_removed :
  (exists h,
     run_from [ArgIterable [50; 30; 80]; ArgFunction tenth] [] = Some h /\
     tree h = Node 50 (Node 30 undefined undefined 1)
                      (Node 80 undefined undefined 1) 2 /\
     minNodeValue (Node 80 undefined undefined 1) = Node 80 undefined undefined 1 /\
     remove Z.ltb (tree h) 5 (keyFn h)
     = Some (Node 80 (Node 30 undefined undefined 1)
                     (Node 80 undefined undefined 1) 2)) /\
  (exists h,
     run_from [ArgIterable [-10; -20; 10; 1]; ArgFunction tenth] [] = Some h /\
     tree h = Node (-10) (Node (-20) undefined undefined 1)
                         (Node 10 (Node 1 undefined undefined 1) undefined 2) 3 /\
     minNodeValue (Node 10 (Node 1 undefined undefined 1) undefined 2)
     = Node 1 undefined undefined 1 /\
     remove Z.ltb (tree h) (-1) (keyFn h)
     = Some (Node 1 (Node (-20) undefined undefined 1)
                    (Node 1 undefined undefined 1) 2)).
Proof. split; eexists; repeat split. Qed.

(** C7. Rotations: when the right child is present [leftRotate] returns, and
    when the left child is present [rightRotate] returns, a subtree with the
    same in-order sequence of values; the three outer subtrees are carried
    over untouched, the demoted node's height is recomputed from its new
    children and the promoted node's height is then recomputed from that new
    value. *)
Theorem C7_rotations_preserve_inorder
        (V : Type) (val cval : V) (a b c : AVLNode V) (h ch : Z) :
  (exists t',
     leftRotate (Node val a (Node cval b c ch) h) = Some t' /\
     traverse t' = traverse (Node val a (Node cval b c ch) h) /\
     t' = Node cval
               (Node val a b (1 + Z.max (height a) (height b)))
               c
               (1 + Z.max (1 + Z.max (height a) (height b)) (height c))) /\
  (exists t',
     rightRotate (Node val (Node cval a b ch) c h) = Some t' /\
     traverse t' = traverse (Node val (Node cval a b ch) c h) /\
     t' = Node cval
               a
               (Node val b c (1 + Z.max (height b) (height c)))
               (1 + Z.max (height a) (1 + Z.max (height b) (height c)))).
Proof.
  split; eexists; (split; [reflexivity|]); (split; [|reflexivity]).
  - apply leftRotate_traverse with (t := Node val a (Node cval b c ch) h).
    reflexivity.
  - apply rightRotate_traverse with (t := Node val (Node cval a b ch) c h).
    reflexivity.
Qed.

(** C8. On every handle a program can reach, [insert] and [remove] return: no
    rotation is ever applied to a node whose promoted child is absent, and
    the rebalancing code never reads [val] or a child through an absent
    node.  Each of those accesses is a [None] of the model, and the rotations
    return [None] only then ([leftRotate_None], [rightRotate_None]). *)
Theorem C8_rebalancing_never_dereferences_absent
        (V : Type) (lt : V -> V -> bool)
        (lt_asym : forall a b, lt a b = true -> lt b a = false)
        (h : Handle V) (Hreach : reachable lt h) (val : V) :
  (exists h', handle_insert lt h val = Some h') /\
  (exists h', handle_remove lt h val = Some h').
Proof.
  pose proof (@reachable_avl V lt lt_asym h Hreach) as Ha.
  unfold handle_insert, handle_remove. split.
  - destruct (insert_avl lt lt_asym (keyFn h) val (tree h) Ha) as (t' & -> & _).
    cbn [bind]. eauto.
  - destruct (remove_avl lt (keyFn h) (tree h) Ha val) as (t' & -> & _).
    cbn [bind]. eauto.
Qed.

Lemma C8_rebalancing_never_dereferences_absent_witness :
  (forall a b, (a <? b) = true -> (b <? a) = false) /\
  reachable Z.ltb tree_5_3_8_2 /\
  (exists h', handle_insert Z.ltb tree_5_3_8_2 1 = Some h') /\
  (exists h', handle_remove Z.ltb tree_5_3_8_2 1 = Some h').
Proof.
  split; [exact Zltb_asym|]. split; [exact tree_5_3_8_2_reachable|].
  exact (@C8_rebalancing_never_dereferences_absent
           Z Z.ltb Zltb_asym tree_5_3_8_2 tree_5_3_8_2_reachable 1).
Defined.

(** C9. Construction from an iterable alone returns a handle keyed by the
    identity, the one obtained by creating the empty identity-keyed tree and
    calling [insert] on it for each item in iteration order; from
    [[1, 2, 3, 4]] the ascending traversal is [[1, 2, 3, 4]] and the
    descending one [[4, 3, 2, 1]]. *)
Theorem C9_construct_from_iterable
        (V : Type) (lt : V -> V -> bool)
        (lt_asym : forall a b, lt a b = true -> lt b a = false)
        (items : list V) :
  (exists h, AVLTree lt [ArgIterable items] = Some h /\
             (forall x, keyFn h x = x) /\
             handle_run lt (MkHandle undefined (fun x => x))
                        (map (@OpInsert V) items) = Some h) /\
  (exists h, zAVLTree [ArgIterable [1; 2; 3; 4]] = Some h /\
             (forall x, keyFn h x = x) /\
             handle_iterator h = [1; 2; 3; 4] /\
             handle_reversed h = [4; 3; 2; 1]).
Proof.
  split; [|eexists; split; [reflexivity | repeat split]].
  assert (Hrun : forall t,
             (t' <- insertAll lt t items (fun x => x) ;;
              Some (MkHandle t' (fun x => x)))
             = handle_run lt (MkHandle t (fun x => x)) (map (@OpInsert V) items)).
  { induction items as [|item rest IH]; intros t; [reflexivity|].
    cbn [insertAll map handle_run handle_step]. unfold handle_insert.
    cbn [tree keyFn].
    destruct (insert lt t item (fun x => x)) as [t1|]; [|reflexivity].
    cbn [bind]. apply IH. }
  destruct (@reachable_invariant V lt (fun _ t => avl t))
    with (args := [ArgIterable items]) (ops := @nil (Op V))
    as (h & Hh & _).
  - intros key. exact I.
  - intros key t val Ht.
    destruct (insert_avl lt lt_asym key val t Ht) as (t' & E & Ht' & _). eauto.
  - intros key t q Ht.
    destruct (remove_avl lt key t Ht q) as (t' & E & Ht' & _). eauto.
  - destruct (AVLTree lt [ArgIterable items]) as [h0|] eqn:E; [|discriminate].
    cbn [bind handle_run] in Hh. injection Hh as ->.
    exists h. split; [reflexivity|].
    unfold AVLTree in E. cbn [nth_error] in E. rewrite Hrun in E.
    split; [|exact E].
    destruct (insertAll lt undefined items (fun x => x)) as [t'|] eqn:E';
      [|rewrite <- Hrun in E; rewrite E' in E; discriminate].
    rewrite <- Hrun, E' in E. injection E as <-. reflexivity.
Qed.

Lemma C9_construct_from_iterable_witness :
  (forall a b, (a <? b) = true -> (b <? a) = false) /\
  (exists h, AVLTree Z.ltb [ArgIterable [4; 2; 3; 1]] = Some h /\
             (forall x, keyFn h x = x) /\
             handle_run Z.ltb (MkHandle undefined (fun x => x))
                        (map (@OpInsert Z) [4; 2; 3; 1]) = Some h) /\
  (exists h, zAVLTree [ArgIterable [1; 2; 3; 4]] = Some h /\
             (forall x, keyFn h x = x) /\
             handle_iterator h = [1; 2; 3; 4] /\
             handle_reversed h = [4; 3; 2; 1]).
Proof.
  split; [exact Zltb_asym|].
  exact (@C9_construct_from_iterable Z Z.ltb Zltb_asym [4; 2; 3; 1]).
Defined.

(** C10. The constructor called with no argument returns a handle over the
    empty tree keyed by the identity, the same handle as the constructor
    called with an empty iterable; on it both traversals are empty, [get]
    finds nothing, [remove] changes nothing and [insert] stores a single
    leaf. *)
Theorem C10_no_argument_constructor
        (V : Type) (lt seq : V -> V -> bool) :
  exists h,
    AVLTree lt [] = Some h /\
    h = MkHandle undefined (fun x : V => x) /\
    AVLTree lt [ArgIterable []] = Some h /\
    handle_iterator h = [] /\
    handle_reversed h = [] /\
    (forall k, handle_get lt seq h k = None) /\
    (forall k, handle_remove lt h k = Some h) /\
    (forall val, handle_insert lt h val
                 = Some (MkHandle (Node val undefined undefined 1) (fun x => x))).
Proof. eexists. split; [reflexivity|]. repeat split. Qed.

(** * Further properties of the code *)

(** ** Lookup and traversal on arbitrary trees *)

Section AnyTree.

Variable V : Type.
Variable lt : V -> V -> bool.
Variable seq : V -> V -> bool.

Lemma get_sound (keyFn : V -> V) (k v : V) (t : AVLNode V) :
  get lt seq t keyFn k = Some v ->
  In v (traverse t) /\ seq k (keyFn v) = true.
Proof.
  induction t as [|x l IHl r IHr h]; [discriminate|].
  cbn [get]. rewrite traverse_Node, in_app_iff. simpl.
  destruct (seq k (keyFn x)) eqn:Es.
  - intros [= <-]. auto.
  - destruct (gt lt k (keyFn x)); [intros H; apply IHr in H; tauto|].
    destruct (lt k (keyFn x)); [intros H; apply IHl in H; tauto | discriminate].
Qed.

Lemma get_miss (keyFn : V -> V) (k : V) (t : AVLNode V) :
  (forall y, In y (traverse t) -> seq k (keyFn y) = false) ->
  get lt seq t keyFn k = None.
Proof.
  induction t as [|x l IHl r IHr h]; [reflexivity|].
  rewrite traverse_Node. intros H. cbn [get].
  rewrite (H x) by (apply in_app_iff; simpl; auto).
  destruct (gt lt k (keyFn x)).
  - apply IHr. intros y Hy. apply H. apply in_app_iff. simpl. auto.
  - destruct (lt k (keyFn x)); [|reflexivity].
    apply IHl. intros y Hy. apply H. apply in_app_iff. auto.
Qed.

Lemma remove_length (key : V -> V) (t : AVLNode V) :
  forall (q : V) (t' : AVLNode V),
  remove lt t q key = Some t' ->
  (length (traverse t') <= length (traverse t) <= S (length (traverse t')))%nat.
Proof.
  induction t as [|x l IHl r IHr h]; intros q t'.
  - intros [= <-]. simpl. lia.
  - cbn [remove]. rewrite traverse_Node, length_app. cbn [length].
    destruct (lt q (key x)); [|destruct (gt lt q (key x))].
    + destruct (remove lt l q key) as [l'|] eqn:El; [|discriminate].
      cbn [bind]. intros Hb. apply IHl in El.
      rewrite (rebalanceAfterRemove_traverse _ Hb), traverse_Node, length_app.
      cbn [length]. lia.
    + destruct (remove lt r q key) as [r'|] eqn:Er; [|discriminate].
      cbn [bind]. intros Hb. apply IHr in Er.
      rewrite (rebalanceAfterRemove_traverse _ Hb), traverse_Node, length_app.
      cbn [length]. lia.
    + destruct l as [|lx ll lr lh]; [intros [= <-]; simpl; lia|].
      destruct r as [|rx rl rr rh]; [intros [= <-]; simpl; lia|].
      remember (Node lx ll lr lh) as L eqn:EL.
      remember (Node rx rl rr rh) as R eqn:ER.
      destruct (minNodeValue R) as [|tval tl tr th] eqn:Em; [discriminate|].
      destruct (remove lt R tval key) as [r'|] eqn:Er; [|discriminate].
      cbn [bind]. intros Hb. apply IHr in Er.
      rewrite (rebalanceAfterRemove_traverse _ Hb), traverse_Node, length_app.
      cbn [length]. lia.
Qed.

Lemma minNodeValue_leftmost (val : V) (l r : AVLNode V) (h : Z) :
  exists tval tr th rest,
    minNodeValue (Node val l r h) = Node tval undefined tr th /\
    traverse (Node val l r h) = tval :: rest.
Proof.
  revert val r h. induction l as [|lx ll IHll lr _ lh]; intros val r h.
  - exists val, r, h, (traverse r). split; [reflexivity|].
    now rewrite traverse_Node.
  - destruct (IHll lx lr lh) as (tval & tr & th & rest & Hm & Ht).
    exists tval, tr, th, (rest ++ val :: traverse r). split.
    + cbn [minNodeValue]. exact Hm.
    + rewrite traverse_Node, Ht. reflexivity.
Qed.

Hypothesis lt_asym : forall a b, lt a b = true -> lt b a = false.

Lemma insert_split (key : V -> V) (val : V) (t : AVLNode V) :
  forall t', insert lt t val key = Some t' ->
  exists xs ys, traverse t = xs ++ ys /\
                (traverse t' = xs ++ val :: ys \/ traverse t' = xs ++ ys).
Proof.
  induction t as [|x l IHl r IHr h]; intros t'.
  - intros [= <-]. exists [], []. simpl. auto.
  - cbn [insert]. unfold gt.
    destruct (lt (key val) (key x)) eqn:Elt.
    + rewrite (lt_asym Elt).
      destruct (insert lt l val key) as [l'|] eqn:El; [|discriminate].
      cbn [bind]. intros Hb.
      rewrite (balanceAfterInsert_traverse _ _ _ _ Hb), !traverse_Node.
      destruct (IHl _ eq_refl) as (xs & ys & -> & [-> | ->]);
        exists xs, (ys ++ x :: traverse r); rewrite <- !app_assoc;
        (split; [reflexivity|]); [left | right]; reflexivity.
    + cbn [bind]. destruct (lt (key x) (key val)) eqn:Egt.
      * destruct (insert lt r val key) as [r'|] eqn:Er; [|discriminate].
        cbn [bind]. intros Hb.
        rewrite (balanceAfterInsert_traverse _ _ _ _ Hb), !traverse_Node.
        destruct (IHr _ eq_refl) as (xs & ys & -> & [-> | ->]);
          exists (traverse l ++ x :: xs), ys; rewrite <- !app_assoc;
          (split; [reflexivity|]); [left | right]; reflexivity.
      * cbn [bind]. intros Hb.
        rewrite (balanceAfterInsert_traverse _ _ _ _ Hb).
        exists (traverse (Node x l r h)), []. rewrite !traverse_Node, app_nil_r.
        split; [reflexivity | right; reflexivity].
Qed.

End AnyTree.

(** ** Strictly ordered trees under an arbitrary key function *)

Section KeyedTrees.

Variable V : Type.
Variable lt : V -> V -> bool.
Variable seq : V -> V -> bool.

Hypothesis lt_asym : forall a b, lt a b = true -> lt b a = false.
Hypothesis lt_negtrans :
  forall a b c, lt a b = false -> lt b c = false -> lt a c = false.
Hypothesis lt_connected : forall a b, lt a b = false -> lt b a = false -> a = b.
Hypothesis seq_spec : forall a b, seq a b = true <-> a = b.

Variable key : V -> V.

Lemma seq_refl (a : V) : seq a a = true.
Proof. now apply seq_spec. Qed.

Lemma seq_neq (a b : V) : a <> b -> seq a b = false.
Proof.
  intros H. destruct (seq a b) eqn:E; [|reflexivity].
  apply seq_spec in E. contradiction.
Qed.

Lemma insert_fresh (val : V) (t : AVLNode V) :
  (forall y, In y (traverse t) -> key y <> key val) ->
  forall t', insert lt t val key = Some t' ->
  exists xs ys, traverse t = xs ++ ys /\ traverse t' = xs ++ val :: ys.
Proof.
  induction t as [|x l IHl r IHr h]; intros Hfresh t'.
  - intros [= <-]. exists [], []. split; reflexivity.
  - rewrite traverse_Node in Hfresh.
    assert (Hl : forall y, In y (traverse l) -> key y <> key val)
      by (intros y Hy; apply Hfresh, in_app_iff; auto).
    assert (Hr : forall y, In y (traverse r) -> key y <> key val)
      by (intros y Hy; apply Hfresh, in_app_iff; simpl; auto).
    cbn [insert]. unfold gt.
    destruct (lt (key val) (key x)) eqn:Elt.
    + rewrite (lt_asym Elt).
      destruct (insert lt l val key) as [l'|] eqn:El; [|discriminate].
      cbn [bind]. intros Hb.
      rewrite (balanceAfterInsert_traverse _ _ _ _ Hb), !traverse_Node.
      destruct (IHl Hl _ eq_refl) as (xs & ys & -> & ->).
      exists xs, (ys ++ x :: traverse r). rewrite <- !app_assoc.
      split; reflexivity.
    + cbn [bind]. destruct (lt (key x) (key val)) eqn:Egt.
      * destruct (insert lt r val key) as [r'|] eqn:Er; [|discriminate].
        cbn [bind]. intros Hb.
        rewrite (balanceAfterInsert_traverse _ _ _ _ Hb), !traverse_Node.
        destruct (IHr Hr _ eq_refl) as (xs & ys & -> & ->).
        exists (traverse l ++ x :: xs), ys. rewrite <- !app_assoc.
        split; reflexivity.
      * exfalso. apply (Hfresh x); [apply in_app_iff; simpl; auto|].
        symmetry. now apply lt_connected.
Qed.

Lemma insert_bst_any (val : V) (t t' : AVLNode V) :
  bst lt key t -> insert lt t val key = Some t' -> bst lt key t'.
Proof.
  revert t'. induction t as [|x l IHl r IHr h]; intros t' Hb.
  - intros [= <-]. simpl. auto.
  - cbn [insert]. destruct Hb as (Hl & Hr & Bl & Br).
    destruct (if lt (key val) (key x) then insert lt l val key else Some l)
      as [l'|] eqn:El; [|discriminate].
    cbn [bind].
    destruct (if gt lt (key val) (key x) then insert lt r val key else Some r)
      as [r'|] eqn:Er; [|discriminate].
    cbn [bind]. intros Hbal.
    apply (@bst_increasing V lt lt_asym lt_negtrans key).
    rewrite (balanceAfterInsert_traverse _ _ _ _ Hbal).
    apply (@bst_increasing V lt lt_asym lt_negtrans key). cbn [bst].
    rewrite every_In in Hl, Hr. rewrite !every_In.
    unfold gt in Er.
    destruct (lt (key val) (key x)) eqn:Elt;
      destruct (lt (key x) (key val)) eqn:Egt;
      try (injection El as <-); try (injection Er as <-).
    + pose proof (lt_asym Elt). congruence.
    + repeat split; eauto.
      intros y Hy. destruct (@insert_In V lt key val l l' El y Hy) as [-> | Hy']; auto.
    + repeat split; eauto.
      intros y Hy. destruct (@insert_In V lt key val r r' Er y Hy) as [-> | Hy']; auto.
    + repeat split; auto.
Qed.

Lemma get_found (y : V) (t : AVLNode V) :
  bst lt key t -> In y (traverse t) -> get lt seq t key (key y) = Some y.
Proof.
  induction t as [|x l IHl r IHr h]; [intros _ []|].
  intros (Hl & Hr & Bl & Br) Hy. rewrite every_In in Hl, Hr.
  rewrite traverse_Node in Hy. apply in_app_iff in Hy.
  cbn [get]. unfold gt.
  destruct Hy as [Hy | [-> | Hy]].
  - pose proof (Hl _ Hy) as Hlt.
    rewrite seq_neq, (lt_asym Hlt), Hlt; auto.
    intros E. rewrite E, (lt_irrefl lt lt_asym) in Hlt. discriminate.
  - now rewrite seq_refl.
  - pose proof (Hr _ Hy) as Hlt.
    rewrite seq_neq, Hlt; auto.
    intros E. rewrite E, (lt_irrefl lt lt_asym) in Hlt. discriminate.
Qed.

Lemma get_None_fresh (k : V) (t : AVLNode V) :
  bst lt key t -> get lt seq t key k = None ->
  forall y, In y (traverse t) -> key y <> k.
Proof.
  intros Hb Hg y Hy <-. rewrite (@get_found y t Hb Hy) in Hg. discriminate.
Qed.

Lemma get_insert (val k : V) (t t' : AVLNode V) :
  bst lt key t -> insert lt t val key = Some t' ->
  get lt seq t' key k
  = match get lt seq t key k with
    | Some y => Some y
    | None => if seq k (key val) then Some val else None
    end.
Proof.
  intros Hb Hi. pose proof (@insert_bst_any val t t' Hb Hi) as Hb'.
  destruct (@insert_split V lt lt_asym key val t t' Hi) as (xs & ys & Ht & Ht').
  destruct (get lt seq t key k) as [y|] eqn:Hg.
  - destruct (@get_sound V lt seq key k y t Hg) as (Hy & Hk).
    apply seq_spec in Hk. subst k. apply get_found; [assumption|].
    rewrite Ht in Hy. apply in_app_iff in Hy.
    destruct Ht' as [-> | ->]; apply in_app_iff; simpl; tauto.
  - pose proof (@get_None_fresh k t Hb Hg) as Hfresh.
    destruct (seq k (key val)) eqn:Es.
    + apply seq_spec in Es. subst k.
      destruct (@insert_fresh val t Hfresh t' Hi) as (xs' & ys' & _ & Hins).
      apply get_found; [assumption|].
      rewrite Hins. apply in_app_iff. simpl. auto.
    + apply get_miss. intros z Hz.
      destruct (@insert_In V lt key val t t' Hi z Hz) as [-> | Hz']; [assumption|].
      apply seq_neq. intros E. apply (Hfresh z Hz'). now symmetry.
Qed.

Lemma insert_has_key (val : V) (t t' : AVLNode V) :
  insert lt t val key = Some t' ->
  exists y, In y (traverse t') /\ key y = key val.
Proof.
  revert t'. induction t as [|x l IHl r IHr h]; intros t'.
  - intros [= <-]. exists val. simpl. auto.
  - cbn [insert]. unfold gt.
    destruct (lt (key val) (key x)) eqn:Elt.
    + rewrite (lt_asym Elt).
      destruct (insert lt l val key) as [l'|] eqn:El; [|discriminate].
      cbn [bind]. intros Hb. destruct (IHl _ eq_refl) as (y & Hy & Hk).
      exists y. split; [|assumption].
      rewrite (balanceAfterInsert_traverse _ _ _ _ Hb), traverse_Node.
      apply in_app_iff. auto.
    + cbn [bind]. destruct (lt (key x) (key val)) eqn:Egt.
      * destruct (insert lt r val key) as [r'|] eqn:Er; [|discriminate].
        cbn [bind]. intros Hb. destruct (IHr _ eq_refl) as (y & Hy & Hk).
        exists y. split; [|assumption].
        rewrite (balanceAfterInsert_traverse _ _ _ _ Hb), traverse_Node.
        apply in_app_iff. simpl. auto.
      * cbn [bind]. intros Hb. exists x. split.
        -- rewrite (balanceAfterInsert_traverse _ _ _ _ Hb), traverse_Node.
           apply in_app_iff. simpl. auto.
        -- symmetry. now apply lt_connected.
Qed.

Lemma remove_missing (q : V) (t : AVLNode V) :
  avl t -> (forall y, In y (traverse t) -> key y <> q) ->
  remove lt t q key = Some t.
Proof.
  induction t as [|x l IHl r IHr h]; [reflexivity|].
  intros (Hl & Hr & Hb & ->). rewrite traverse_Node. intros Hq.
  assert (Hql : forall y, In y (traverse l) -> key y <> q)
    by (intros y Hy; apply Hq, in_app_iff; auto).
  assert (Hqr : forall y, In y (traverse r) -> key y <> q)
    by (intros y Hy; apply Hq, in_app_iff; simpl; auto).
  assert (Hre : rebalanceAfterRemove
                  (Node x l r (1 + Z.max (height l) (height r)))
                = Some (Node x l r (1 + Z.max (height l) (height r)))).
  { unfold rebalanceAfterRemove, balanceFactor. cbn [height].
    destruct (1 <? height l - height r) eqn:E1; [apply Z.ltb_lt in E1; lia|].
    destruct (height l - height r <? -1) eqn:E2; [apply Z.ltb_lt in E2; lia|].
    reflexivity. }
  cbn [remove]. unfold gt.
  destruct (lt q (key x)) eqn:Elt; [|destruct (lt (key x) q) eqn:Egt].
  - rewrite IHl by assumption. exact Hre.
  - rewrite IHr by assumption. exact Hre.
  - exfalso. apply (Hq x); [apply in_app_iff; simpl; auto|].
    symmetry. now apply lt_connected.
Qed.

Lemma remove_clears_key (t : AVLNode V) :
  forall (q : V) (t' : AVLNode V),
  bst lt key t -> remove lt t q key = Some t' ->
  forall y, In y (traverse t') -> key y <> q.
Proof.
  induction t as [|x l IHl r IHr h]; intros q t' Hb.
  - intros [= <-] y [].
  - cbn [remove]. destruct Hb as (Hl & Hr & Bl & Br).
    rewrite every_In in Hl, Hr. unfold gt.
    destruct (lt q (key x)) eqn:Elt; [|destruct (lt (key x) q) eqn:Egt].
    + destruct (remove lt l q key) as [l'|] eqn:El; [|discriminate].
      cbn [bind]. intros Hn y Hy.
      rewrite (rebalanceAfterRemove_traverse _ Hn), traverse_Node in Hy.
      apply in_app_iff in Hy. destruct Hy as [Hy | [<- | Hy]].
      * eapply IHl; eauto.
      * intros E. rewrite E, (lt_irrefl lt lt_asym) in Elt. discriminate.
      * intros E. apply Hr in Hy. rewrite E in Hy.
        pose proof (lt_asym Elt). congruence.
    + destruct (remove lt r q key) as [r'|] eqn:Er; [|discriminate].
      cbn [bind]. intros Hn y Hy.
      rewrite (rebalanceAfterRemove_traverse _ Hn), traverse_Node in Hy.
      apply in_app_iff in Hy. destruct Hy as [Hy | [<- | Hy]].
      * intros E. apply Hl in Hy. rewrite E in Hy.
        pose proof (lt_asym Egt). congruence.
      * intros E. rewrite E, (lt_irrefl lt lt_asym) in Egt. discriminate.
      * eapply IHr; eauto.
    + assert (q = key x) as -> by now apply lt_connected.
      assert (Hxl : forall y, In y (traverse l) -> key y <> key x).
      { intros y Hy E. apply Hl in Hy.
        rewrite E, (lt_irrefl lt lt_asym) in Hy. discriminate. }
      assert (Hxr : forall y, In y (traverse r) -> key y <> key x).
      { intros y Hy E. apply Hr in Hy.
        rewrite E, (lt_irrefl lt lt_asym) in Hy. discriminate. }
      destruct l as [|lx ll lr lh]; [intros [= <-]; assumption|].
      destruct r as [|rx rl rr rh]; [intros [= <-]; assumption|].
      remember (Node lx ll lr lh) as L eqn:EL.
      remember (Node rx rl rr rh) as R eqn:ER.
      destruct (minNodeValue R) as [|tval tl tr th] eqn:Em; [discriminate|].
      destruct (remove lt R tval key) as [r'|] eqn:Er; [|discriminate].
      cbn [bind]. intros Hn y Hy.
      rewrite (rebalanceAfterRemove_traverse _ Hn), traverse_Node in Hy.
      apply in_app_iff in Hy. destruct Hy as [Hy | [<- | Hy]].
      * now apply Hxl.
      * apply Hxr. eapply minNodeValue_In; eauto.
      * apply Hxr. eapply remove_In; eauto.
Qed.

End KeyedTrees.

(** ** Height of a balanced tree *)

Section HeightBound.

Variable V : Type.

Lemma pow2_half_le (a b : Z) : 0 <= a -> a <= b -> 2 ^ (a / 2) <= 2 ^ (b / 2).
Proof.
  intros Ha Hab. apply Z.pow_le_mono_r; [lia|].
  apply Z.div_le_mono; lia.
Qed.

Lemma pow2_half_succ (m : Z) : 0 <= m -> 2 ^ ((m + 2) / 2) = 2 * 2 ^ (m / 2).
Proof.
  intros Hm. replace (m + 2) with (m + 1 * 2) by lia.
  rewrite Z.div_add by lia.
  rewrite <- Z.pow_succ_r by (apply Z.div_pos; lia).
  reflexivity.
Qed.

Lemma avl_height_log (t : AVLNode V) :
  avl t -> 2 ^ (height t / 2) <= Z.of_nat (length (traverse t)) + 1.
Proof.
  induction t as [|x l IHl r IHr h]; [intros _; simpl; lia|].
  intros (Hl & Hr & Hb & ->). specialize (IHl Hl). specialize (IHr Hr).
  pose proof (height_nonneg l Hl) as Hnl.
  pose proof (height_nonneg r Hr) as Hnr.
  rewrite traverse_Node, length_app. cbn [height length].
  set (m := Z.min (height l) (height r)).
  assert (Hm : 0 <= m) by (unfold m; lia).
  pose proof (@pow2_half_le (1 + Z.max (height l) (height r)) (m + 2)) as H1.
  pose proof (pow2_half_succ Hm) as H2.
  pose proof (@pow2_half_le m (height l) Hm) as H3.
  pose proof (@pow2_half_le m (height r) Hm) as H4.
  unfold m in *. lia.
Qed.

End HeightBound.

(** ** Handles: runs of calls *)

Section Runs.

Variable V : Type.
Variable lt : V -> V -> bool.
Variable seq : V -> V -> bool.

Lemma handle_run_app (h : Handle V) (ops1 ops2 : list (Op V)) :
  handle_run lt h (ops1 ++ ops2)
  = (h1 <- handle_run lt h ops1 ;; handle_run lt h1 ops2).
Proof.
  revert h. induction ops1 as [|o rest IH]; intros h; [reflexivity|].
  cbn [app handle_run]. destruct (handle_step lt h o) as [h1|]; [|reflexivity].
  cbn [bind]. apply IH.
Qed.

Lemma reachable_step (h h' : Handle V) (o : Op V) :
  reachable lt h -> handle_step lt h o = Some h' -> reachable lt h'.
Proof.
  intros (args & ops & Hrun) Hstep. exists args, (ops ++ [o]).
  destruct (AVLTree lt args) as [h0|]; [|discriminate].
  cbn [bind] in *. rewrite handle_run_app, Hrun. cbn [bind handle_run].
  rewrite Hstep. reflexivity.
Qed.

Lemma handle_step_keyFn (h h' : Handle V) (o : Op V) :
  handle_step lt h o = Some h' -> keyFn h' = keyFn h.
Proof.
  destruct o as [val | k]; cbn [handle_step];
    unfold handle_insert, handle_remove;
    [destruct (insert lt (tree h) val (keyFn h)) | destruct (remove lt (tree h) k (keyFn h))];
    try discriminate; now intros [= <-].
Qed.

Lemma insertAll_In (key : V -> V) (items : list V) :
  forall t t', insertAll lt t items key = Some t' ->
  forall y, In y (traverse t') -> In y (traverse t) \/ In y items.
Proof.
  induction items as [|item rest IH]; intros t t'.
  - intros [= <-]. auto.
  - cbn [insertAll]. destruct (insert lt t item key) as [t1|] eqn:E; [|discriminate].
    cbn [bind]. intros Hr y Hy. destruct (IH _ _ Hr _ Hy) as [Hy1 | Hy1].
    + destruct (@insert_In V lt key item t t1 E y Hy1) as [-> | Hy2];
        simpl; auto.
    + simpl; auto.
Qed.

Lemma handle_run_In (ops : list (Op V)) :
  forall h h', handle_run lt h ops = Some h' ->
  forall y, In y (handle_iterator h') ->
            In y (handle_iterator h) \/ In y (inserted ops).
Proof.
  unfold handle_iterator.
  induction ops as [|o rest IH]; intros h h'.
  - intros [= <-]. auto.
  - cbn [handle_run]. destruct (handle_step lt h o) as [h1|] eqn:E; [|discriminate].
    cbn [bind]. intros Hr y Hy.
    unfold inserted. cbn [flat_map]. fold (inserted rest). rewrite in_app_iff.
    destruct (IH _ _ Hr _ Hy) as [Hy1 | Hy1]; [|auto].
    destruct o as [val | k]; cbn [handle_step] in E.
    + unfold handle_insert in E.
      destruct (insert lt (tree h) val (keyFn h)) as [t1|] eqn:Ei; [|discriminate].
      injection E as <-. cbn [tree] in Hy1.
      destruct (@insert_In V lt (keyFn h) val (tree h) t1 Ei y Hy1) as [-> | Hy2];
        simpl; auto.
    + unfold handle_remove in E.
      destruct (remove lt (tree h) k (keyFn h)) as [t1|] eqn:Ei; [|discriminate].
      injection E as <-. cbn [tree] in Hy1. left.
      exact (@remove_In V lt (keyFn h) (tree h) k t1 Ei y Hy1).
Qed.

Lemma insert_only_invariant (Inv : (V -> V) -> AVLNode V -> Prop) :
  (forall key, Inv key undefined) ->
  (forall key t val, Inv key t ->
     exists t', insert lt t val key = Some t' /\ Inv key t') ->
  forall (args : list (Arg V)) (vals : list V),
  exists h,
    (h0 <- AVLTree lt args ;; handle_run lt h0 (map (@OpInsert V) vals)) = Some h /\
    Inv (keyFn h) (tree h).
Proof.
  intros Hempty Hins args vals.
  assert (Hall : forall key items t, Inv key t ->
            exists t', insertAll lt t items key = Some t' /\ Inv key t').
  { intros key items. induction items as [|item rest IH]; intros t Ht.
    - exists t. now split.
    - cbn [insertAll]. destruct (Hins key t item Ht) as (t1 & -> & Ht1).
      cbn [bind]. now apply IH. }
  assert (Hnew : exists h0, AVLTree lt args = Some h0 /\ Inv (keyFn h0) (tree h0)).
  { unfold AVLTree.
    set (keyFn2 := match nth_error args 1 with
                   | Some (ArgFunction f) => f
                   | _ => _
                   end).
    destruct (nth_error args 0) as [[f | items |] |];
      try (eexists; split; [reflexivity | apply Hempty]).
    destruct (Hall keyFn2 items undefined (Hempty _)) as (t' & -> & Ht').
    eexists; split; [reflexivity | exact Ht']. }
  destruct Hnew as (h0 & -> & Hh0). cbn [bind].
  revert h0 Hh0. induction vals as [|val rest IH]; intros h0 Hh0.
  - exists h0. now split.
  - cbn [map handle_run handle_step]. destruct h0 as [t key].
    cbn [tree keyFn] in Hh0. unfold handle_insert. cbn [tree keyFn].
    destruct (Hins key t val Hh0) as (t' & -> & Ht'). cbn [bind].
    now apply IH.
Qed.

End Runs.

(** ** Handles under an arbitrary key function and a total order *)

Section KeyedHandles.

Variable V : Type.
Variable lt : V -> V -> bool.
Variable seq : V -> V -> bool.

Hypothesis lt_asym : forall a b, lt a b = true -> lt b a = false.
Hypothesis lt_negtrans :
  forall a b c, lt a b = false -> lt b c = false -> lt a c = false.
Hypothesis lt_connected : forall a b, lt a b = false -> lt b a = false -> a = b.
Hypothesis seq_spec : forall a b, seq a b = true <-> a = b.

Lemma insert_only_bst (h : Handle V) :
  insert_only lt h -> avl (tree h) /\ bst lt (keyFn h) (tree h).
Proof.
  intros (args & vals & Hrun).
  destruct (@insert_only_invariant V lt (fun key t => avl t /\ bst lt key t))
    with (args := args) (vals := vals) as (h' & Hrun' & Hinv).
  - intros key. split; exact I.
  - intros key t val (Ht & Hb).
    destruct (insert_avl lt lt_asym key val t Ht) as (t' & E & Ht' & _).
    exists t'. repeat split; auto.
    exact (@insert_bst_any V lt lt_asym lt_negtrans key val t t' Hb E).
  - assert (h' = h) as <- by congruence. exact Hinv.
Qed.

Lemma insertAll_perm (key : V -> V) (items : list V) :
  forall t, avl t -> bst lt key t -> NoDup (map key items) ->
  (forall y z, In y (traverse t) -> In z items -> key y <> key z) ->
  exists t', insertAll lt t items key = Some t' /\ avl t' /\ bst lt key t' /\
             Permutation (traverse t') (traverse t ++ items).
Proof.
  induction items as [|item rest IH]; intros t Ha Hb Hnd Hx.
  - exists t. rewrite app_nil_r. auto.
  - cbn [insertAll]. cbn [map] in Hnd. apply NoDup_cons_iff in Hnd.
    destruct Hnd as (Hnew & Hnd).
    destruct (insert_avl lt lt_asym key item t Ha) as (t1 & E & Ha1 & _).
    rewrite E. cbn [bind].
    pose proof (@insert_bst_any V lt lt_asym lt_negtrans key item t t1 Hb E) as Hb1.
    destruct (@insert_fresh V lt lt_asym lt_connected key item t) with (t' := t1)
      as (xs & ys & Ht & Ht1); [intros y Hy; apply Hx; simpl; auto | exact E |].
    destruct (IH t1 Ha1 Hb1 Hnd) as (t' & E' & Ha' & Hb' & Hp).
    { intros y z Hy Hz. rewrite Ht1 in Hy. apply in_app_iff in Hy.
      destruct Hy as [Hy | [<- | Hy]].
      - apply Hx; [rewrite Ht; apply in_app_iff; auto | simpl; auto].
      - intros E2. apply Hnew. rewrite E2. now apply in_map.
      - apply Hx; [rewrite Ht; apply in_app_iff; auto | simpl; auto]. }
    exists t'. repeat split; auto.
    rewrite Hp, Ht1, Ht, <- !app_assoc. apply Permutation_app_head.
    cbn [app]. apply Permutation_middle.
Qed.

Lemma insertAll_get (key : V -> V) (items : list V) :
  forall t, avl t -> bst lt key t ->
  exists t', insertAll lt t items key = Some t' /\ avl t' /\ bst lt key t' /\
             forall k, get lt seq t' key k
                       = match get lt seq t key k with
                         | Some y => Some y
                         | None => find (fun y => seq k (key y)) items
                         end.
Proof.
  induction items as [|item rest IH]; intros t Ha Hb.
  - exists t. repeat split; auto. intros k. now destruct (get lt seq t key k).
  - cbn [insertAll].
    destruct (insert_avl lt lt_asym key item t Ha) as (t1 & E & Ha1 & _).
    rewrite E. cbn [bind].
    pose proof (@insert_bst_any V lt lt_asym lt_negtrans key item t t1 Hb E) as Hb1.
    destruct (IH t1 Ha1 Hb1) as (t' & E' & Ha' & Hb' & Hg).
    exists t'. repeat split; auto. intros k. rewrite Hg.
    rewrite (@get_insert V lt seq lt_asym lt_negtrans lt_connected seq_spec
               key item k t t1 Hb E).
    cbn [find]. destruct (get lt seq t key k); [reflexivity|].
    now destruct (seq k (key item)).
Qed.

Lemma set_step_In (xs : list V) (o : Op V) (y : V) :
  In y (set_step seq xs o) <->
  match o with
  | OpInsert val => y = val \/ In y xs
  | OpRemove k => In y xs /\ y <> k
  end.
Proof.
  destruct o as [val | k]; cbn [set_step].
  - simpl. intuition.
  - rewrite filter_In. split.
    + intros (Hy & Hs). split; [assumption|]. intros ->.
      assert (seq k k = true) as Hk by now apply seq_spec.
      rewrite Hk in Hs. discriminate.
    + intros (Hy & Hn). split; [assumption|].
      destruct (seq y k) eqn:E; [apply seq_spec in E; contradiction | reflexivity].
Qed.

Lemma identity_run (ops : list (Op V)) :
  forall (h : Handle V) (xs : list V),
  reachable lt h -> (forall v, keyFn h v = v) ->
  (forall y, In y (handle_iterator h) <-> In y xs) ->
  exists h', handle_run lt h ops = Some h' /\
             reachable lt h' /\ (forall v, keyFn h' v = v) /\
             (forall y, In y (handle_iterator h') <-> In y (set_run seq xs ops)).
Proof.
  induction ops as [|o rest IH]; intros h xs Hr Hid Hxs.
  - exists h. repeat split; auto; apply Hxs.
  - cbn [handle_run]. unfold set_run. cbn [fold_left].
    fold (set_run seq (set_step seq xs o) rest).
    assert (Hstep : exists h1, handle_step lt h o = Some h1 /\
                      forall y, In y (handle_iterator h1) <->
                                In y (set_step seq xs o)).
    { destruct o as [val | k]; cbn [handle_step].
      - destruct (@identity_key_insert V lt seq lt_asym lt_negtrans lt_connected
                    seq_spec h val Hr Hid) as (h1 & E & Hin).
        exists h1. split; [assumption|]. intros y.
        rewrite Hin, set_step_In, Hxs. tauto.
      - destruct (@identity_key_remove V lt seq lt_asym lt_negtrans lt_connected
                    seq_spec h k Hr Hid) as (h1 & E & _ & Hin & _).
        exists h1. split; [assumption|]. intros y.
        rewrite Hin, set_step_In, Hxs. tauto. }
    destruct Hstep as (h1 & E & Hin). rewrite E. cbn [bind].
    apply IH; [eapply reachable_step; eauto | | assumption].
    intros v. rewrite (handle_step_keyFn _ _ _ E). apply Hid.
Qed.

End KeyedHandles.

(** ** Instances for the concrete runs *)

Lemma tree_50_30_80_tenth_insert_only : insert_only Z.ltb tree_50_30_80_tenth.
Proof. exists [ArgIterable [50; 30; 80]; ArgFunction tenth], []. reflexivity. Qed.

Lemma tree_50_30_80_tenth_reachable : reachable Z.ltb tree_50_30_80_tenth.
Proof. exists [ArgIterable [50; 30; 80]; ArgFunction tenth], []. reflexivity. Qed.

Lemma tree_80_30_80_tenth_reachable : reachable Z.ltb tree_80_30_80_tenth.
Proof.
  exists [ArgIterable [50; 30; 80]; ArgFunction tenth], [OpRemove 5]. reflexivity.
Qed.

(** * Properties beyond the claims *)

(** X1. On every tree the descending traversal is the ascending traversal
    read backwards, and conversely; the two have the same length. *)
Theorem X1_reversed_is_reverse_of_ascending (V : Type) (h : Handle V) :
  handle_reversed h = rev (handle_iterator h) /\
  handle_iterator h = rev (handle_reversed h) /\
  length (handle_reversed h) = length (handle_iterator h).
Proof.
  unfold handle_reversed, handle_iterator. rewrite traverseReversed_rev.
  rewrite rev_involutive, length_rev. auto.
Qed.

(** X2. Whatever the tree, a value returned by [get] is a value stored in
    the tree whose key is [===] to the searched key. *)
Theorem X2_get_returns_a_stored_value_with_the_key
        (V : Type) (lt seq : V -> V -> bool) (h : Handle V) (k v : V)
        (Hget : handle_get lt seq h k = Some v) :
  In v (handle_iterator h) /\ seq k (keyFn h v) = true.
Proof. exact (@get_sound V lt seq (keyFn h) k v (tree h) Hget). Qed.

Lemma X2_get_returns_a_stored_value_with_the_key_witness :
  handle_get Z.ltb Z.eqb tree_50_30_80_tenth 8 = Some 80 /\
  In 80 (handle_iterator tree_50_30_80_tenth) /\
  (8 =? keyFn tree_50_30_80_tenth 80) = true.
Proof.
  split; [reflexivity|].
  apply (@X2_get_returns_a_stored_value_with_the_key
           Z Z.ltb Z.eqb tree_50_30_80_tenth 8 80).
  reflexivity.
Defined.

(** X3. Whatever the tree, [get] returns not-found when no stored value has
    a key [===] to the searched key. *)
Theorem X3_get_of_an_absent_key_is_not_found
        (V : Type) (lt seq : V -> V -> bool) (h : Handle V) (k : V)
        (Habsent : forall y, In y (handle_iterator h) -> seq k (keyFn h y) = false) :
  handle_get lt seq h k = None.
Proof. exact (@get_miss V lt seq (keyFn h) k (tree h) Habsent). Qed.

Lemma X3_get_of_an_absent_key_is_not_found_witness :
  (forall y, In y (handle_iterator tree_50_30_80_tenth) ->
             (4 =? keyFn tree_50_30_80_tenth y) = false) /\
  handle_get Z.ltb Z.eqb tree_50_30_80_tenth 4 = None.
Proof.
  assert (H : forall y, In y (handle_iterator tree_50_30_80_tenth) ->
                        (4 =? keyFn tree_50_30_80_tenth y) = false).
  { intros y. simpl. intros [<- | [<- | [<- | []]]]; reflexivity. }
  split; [exact H|].
  exact (@X3_get_of_an_absent_key_is_not_found
           Z Z.ltb Z.eqb tree_50_30_80_tenth 4 H).
Defined.

(** X4. Whatever the tree and the key function, a [remove] that returns
    stores no value that was not stored before, and makes the traversal
    shorter by one value at most. *)
Theorem X4_remove_drops_at_most_one_value
        (V : Type) (lt : V -> V -> bool) (h h' : Handle V) (k : V)
        (Hrem : handle_remove lt h k = Some h') :
  (forall y, In y (handle_iterator h') -> In y (handle_iterator h)) /\
  (length (handle_iterator h') <= length (handle_iterator h)
   <= S (length (handle_iterator h')))%nat.
Proof.
  unfold handle_remove in Hrem.
  destruct (remove lt (tree h) k (keyFn h)) as [t1|] eqn:E; [|discriminate].
  injection Hrem as <-. unfold handle_iterator. cbn [tree]. split.
  - exact (@remove_In V lt (keyFn h) (tree h) k t1 E).
  - exact (@remove_length V lt (keyFn h) (tree h) k t1 E).
Qed.

Lemma X4_remove_drops_at_most_one_value_witness :
  handle_remove Z.ltb tree_50_30_80_tenth 5 = Some tree_80_30_80_tenth /\
  (forall y, In y (handle_iterator tree_80_30_80_tenth) ->
             In y (handle_iterator tree_50_30_80_tenth)) /\
  (length (handle_iterator tree_80_30_80_tenth)
   <= length (handle_iterator tree_50_30_80_tenth)
   <= S (length (handle_iterator tree_80_30_80_tenth)))%nat.
Proof.
  split; [reflexivity|].
  apply (@X4_remove_drops_at_most_one_value
           Z Z.ltb tree_50_30_80_tenth tree_80_30_80_tenth 5).
  reflexivity.
Defined.

(** X5. Whatever the tree and the key function, an [insert] that returns
    keeps every stored value, in the same relative order, and adds the new
    value at one place of the traversal or not at all.  Only asymmetry of
    [<] is assumed. *)
Theorem X5_insert_keeps_the_stored_values_in_order
        (V : Type) (lt : V -> V -> bool)
        (lt_asym : forall a b, lt a b = true -> lt b a = false)
        (h h' : Handle V) (val : V)
        (Hins : handle_insert lt h val = Some h') :
  exists xs ys,
    handle_iterator h = xs ++ ys /\
    (handle_iterator h' = xs ++ val :: ys \/ handle_iterator h' = xs ++ ys).
Proof.
  unfold handle_insert in Hins.
  destruct (insert lt (tree h) val (keyFn h)) as [t1|] eqn:E; [|discriminate].
  injection Hins as <-. unfold handle_iterator. cbn [tree].
  exact (@insert_split V lt lt_asym (keyFn h) val (tree h) t1 E).
Qed.

Lemma X5_insert_keeps_the_stored_values_in_order_witness :
  (forall a b, (a <? b) = true -> (b <? a) = false) /\
  exists h',
    handle_insert Z.ltb tree_50_30_80_tenth 45 = Some h' /\
    exists xs ys,
      handle_iterator tree_50_30_80_tenth = xs ++ ys /\
      (handle_iterator h' = xs ++ 45 :: ys \/ handle_iterator h' = xs ++ ys).
Proof.
  split; [exact Zltb_asym|].
  eexists. split; [reflexivity|].
  apply (@X5_insert_keeps_the_stored_values_in_order
           Z Z.ltb Zltb_asym tree_50_30_80_tenth _ 45).
  reflexivity.
Defined.

(** X6. On a reachable handle, inserting a value whose key no stored value
    has returns, keeps the stored values in order and adds the value at one
    place: the traversal is one longer.  The order is assumed asymmetric and
    connected. *)
Theorem X6_insert_of_a_fresh_key_adds_the_value
        (V : Type) (lt : V -> V -> bool)
        (lt_asym : forall a b, lt a b = true -> lt b a = false)
        (lt_connected : forall a b, lt a b = false -> lt b a = false -> a = b)
        (h : Handle V) (Hreach : reachable lt h) (val : V)
        (Hfresh : forall y, In y (handle_iterator h) -> keyFn h y <> keyFn h val) :
  exists h' xs ys,
    handle_insert lt h val = Some h' /\
    handle_iterator h = xs ++ ys /\
    handle_iterator h' = xs ++ val :: ys /\
    length (handle_iterator h') = S (length (handle_iterator h)).
Proof.
  pose proof (@reachable_avl V lt lt_asym h Hreach) as Ha.
  destruct (insert_avl lt lt_asym (keyFn h) val (tree h) Ha) as (t1 & E & _).
  destruct (@insert_fresh V lt lt_asym lt_connected (keyFn h) val (tree h)
              Hfresh t1 E) as (xs & ys & Ht & Ht1).
  exists (MkHandle t1 (keyFn h)), xs, ys.
  unfold handle_insert, handle_iterator. rewrite E. cbn [bind tree].
  repeat split; auto. rewrite Ht, Ht1, !length_app. simpl. lia.
Qed.

Lemma X6_insert_of_a_fresh_key_adds_the_value_witness :
  (forall a b, (a <? b) = true -> (b <? a) = false) /\
  (forall a b, (a <? b) = false -> (b <? a) = false -> a = b) /\
  reachable Z.ltb tree_50_30_80_tenth /\
  (forall y, In y (handle_iterator tree_50_30_80_tenth) ->
             keyFn tree_50_30_80_tenth y <> keyFn tree_50_30_80_tenth 45) /\
  exists h' xs ys,
    handle_insert Z.ltb tree_50_30_80_tenth 45 = Some h' /\
    handle_iterator tree_50_30_80_tenth = xs ++ ys /\
    handle_iterator h' = xs ++ 45 :: ys /\
    length (handle_iterator h') = S (length (handle_iterator tree_50_30_80_tenth)).
Proof.
  assert (H : forall y, In y (handle_iterator tree_50_30_80_tenth) ->
                keyFn tree_50_30_80_tenth y <> keyFn tree_50_30_80_tenth 45).
  { intros y. simpl. intros [<- | [<- | [<- | []]]]; discriminate. }
  split; [exact Zltb_asym|]. split; [exact Zltb_connected|].
  split; [exact tree_50_30_80_tenth_reachable|]. split; [exact H|].
  exact (@X6_insert_of_a_fresh_key_adds_the_value
           Z Z.ltb Zltb_asym Zltb_connected
           tree_50_30_80_tenth tree_50_30_80_tenth_reachable 45 H).
Defined.

(** X7. Size consistency and sorting: constructing from an iterable whose
    items have pairwise distinct keys, with any key function, returns a
    handle whose ascending traversal is a rearrangement of the items,
    strictly increasing by key, hence of the same length.  The order is
    assumed total. *)
Theorem X7_construction_sorts_items_with_distinct_keys
        (V : Type) (lt : V -> V -> bool)
        (lt_asym : forall a b, lt a b = true -> lt b a = false)
        (lt_negtrans :
           forall a b c, lt a b = false -> lt b c = false -> lt a c = false)
        (lt_connected : forall a b, lt a b = false -> lt b a = false -> a = b)
        (key : V -> V) (items : list V)
        (Hdistinct : NoDup (map key items)) :
  exists h,
    AVLTree lt [ArgIterable items; ArgFunction key] = Some h /\
    Permutation (handle_iterator h) items /\
    increasing lt key (handle_iterator h) /\
    length (handle_iterator h) = length items.
Proof.
  destruct (@insertAll_perm V lt lt_asym lt_negtrans lt_connected key items
              undefined I I Hdistinct)
    as (t' & E & Ha & Hb & Hp); [intros y z []|].
  exists (MkHandle t' key). unfold AVLTree. cbn [nth_error]. rewrite E.
  cbn [bind]. unfold handle_iterator. cbn [tree]. cbn [traverse app] in Hp.
  repeat split; auto.
  - now apply (@bst_increasing V lt lt_asym lt_negtrans key).
  - now apply Permutation_length.
Qed.

Lemma X7_construction_sorts_items_with_distinct_keys_witness :
  (forall a b, (a <? b) = true -> (b <? a) = false) /\
  (forall a b c, (a <? b) = false -> (b <? c) = false -> (a <? c) = false) /\
  (forall a b, (a <? b) = false -> (b <? a) = false -> a = b) /\
  NoDup (map tenth [50; 30; 80; 10]) /\
  exists h,
    AVLTree Z.ltb [ArgIterable [50; 30; 80; 10]; ArgFunction tenth] = Some h /\
    Permutation (handle_iterator h) [50; 30; 80; 10] /\
    increasing Z.ltb tenth (handle_iterator h) /\
    length (handle_iterator h) = length [50; 30; 80; 10].
Proof.
  assert (H : NoDup (map tenth [50; 30; 80; 10])).
  { repeat constructor; simpl; intuition discriminate. }
  split; [exact Zltb_asym|]. split; [exact Zltb_negtrans|].
  split; [exact Zltb_connected|]. split; [exact H|].
  exact (@X7_construction_sorts_items_with_distinct_keys
           Z Z.ltb Zltb_asym Zltb_negtrans Zltb_connected tenth
           [50; 30; 80; 10] H).
Defined.

(** X8. First write wins: on the handle constructed from an iterable and a
    key function, [get(k)] returns the first item of the iterable whose key
    is [k], and not-found when there is none; later items with the same key
    were dropped.  The order is assumed total, with [===] as its
    equality. *)
Theorem X8_lookup_returns_the_first_item_with_the_key
        (V : Type) (lt seq : V -> V -> bool)
        (lt_asym : forall a b, lt a b = true -> lt b a = false)
        (lt_negtrans :
           forall a b c, lt a b = false -> lt b c = false -> lt a c = false)
        (lt_connected : forall a b, lt a b = false -> lt b a = false -> a = b)
        (seq_spec : forall a b, seq a b = true <-> a = b)
        (key : V -> V) (items : list V) :
  exists h,
    AVLTree lt [ArgIterable items; ArgFunction key] = Some h /\
    forall k, handle_get lt seq h k = find (fun y => seq k (key y)) items.
Proof.
  destruct (@insertAll_get V lt seq lt_asym lt_negtrans lt_connected seq_spec
              key items undefined I I) as (t' & E & _ & _ & Hg).
  exists (MkHandle t' key). unfold AVLTree. cbn [nth_error]. rewrite E.
  cbn [bind]. split; [reflexivity|].
  intros k. unfold handle_get. cbn [tree keyFn]. rewrite Hg. reflexivity.
Qed.

Lemma X8_lookup_returns_the_first_item_with_the_key_witness :
  (forall a b, (a <? b) = true -> (b <? a) = false) /\
  (forall a b c, (a <? b) = false -> (b <? c) = false -> (a <? c) = false) /\
  (forall a b, (a <? b) = false -> (b <? a) = false -> a = b) /\
  (forall a b, (a =? b) = true <-> a = b) /\
  exists h,
    AVLTree Z.ltb [ArgIterable [50; 30; 57; 80; 31]; ArgFunction tenth] = Some h /\
    forall k, handle_get Z.ltb Z.eqb h k
              = find (fun y => k =? tenth y) [50; 30; 57; 80; 31].
Proof.
  split; [exact Zltb_asym|]. split; [exact Zltb_negtrans|].
  split; [exact Zltb_connected|]. split; [exact Zeqb_spec|].
  exact (@X8_lookup_returns_the_first_item_with_the_key
           Z Z.ltb Z.eqb Zltb_asym Zltb_negtrans Zltb_connected Zeqb_spec
           tenth [50; 30; 57; 80; 31]).
Defined.



(** X10. On a handle that has only been inserted into, with any key
    function, [remove(k)] returns and [get(k)] is not-found afterwards. *)
Theorem X10_first_remove_clears_the_key
        (V : Type) (lt seq : V -> V -> bool)
        (lt_asym : forall a b, lt a b = true -> lt b a = false)
        (lt_negtrans :
           forall a b c, lt a b = false -> lt b c = false -> lt a c = false)
        (lt_connected : forall a b, lt a b = false -> lt b a = false -> a = b)
        (seq_spec : forall a b, seq a b = true <-> a = b)
        (h : Handle V) (Honly : insert_only lt h) (k : V) :
  exists h', handle_remove lt h k = Some h' /\
             handle_get lt seq h' k = None /\
             forall y, In y (handle_iterator h') -> keyFn h y <> k.
Proof.
  destruct (@insert_only_bst V lt lt_asym lt_negtrans h Honly) as (Ha & Hb).
  destruct (remove_avl lt (keyFn h) (tree h) Ha k) as (t1 & E & _).
  pose proof (@remove_clears_key V lt lt_asym lt_connected (keyFn h)
                (tree h) k t1 Hb E) as Hclear.
  exists (MkHandle t1 (keyFn h)). unfold handle_remove, handle_get, handle_iterator.
  rewrite E. cbn [bind tree keyFn]. repeat split; auto.
  apply get_miss. intros y Hy. apply (seq_neq seq seq_spec).
  intros Ek. apply (Hclear y Hy). now symmetry.
Qed.

Lemma X10_first_remove_clears_the_key_witness :
  (forall a b, (a <? b) = true -> (b <? a) = false) /\
  (forall a b c, (a <? b) = false -> (b <? c) = false -> (a <? c) = false) /\
  (forall a b, (a <? b) = false -> (b <? a) = false -> a = b) /\
  (forall a b, (a =? b) = true <-> a = b) /\
  insert_only Z.ltb tree_50_30_80_tenth /\
  exists h', handle_remove Z.ltb tree_50_30_80_tenth 5 = Some h' /\
             handle_get Z.ltb Z.eqb h' 5 = None /\
             forall y, In y (handle_iterator h') -> keyFn tree_50_30_80_tenth y <> 5.
Proof.
  split; [exact Zltb_asym|]. split; [exact Zltb_negtrans|].
  split; [exact Zltb_connected|]. split; [exact Zeqb_spec|].
  split; [exact tree_50_30_80_tenth_insert_only|].
  exact (@X10_first_remove_clears_the_key
           Z Z.ltb Z.eqb Zltb_asym Zltb_negtrans Zltb_connected Zeqb_spec
           tree_50_30_80_tenth tree_50_30_80_tenth_insert_only 5).
Defined.

(** X11. On a reachable handle, with any key function, [remove(k)] for a key
    that no stored value has returns and leaves the handle exactly as it
    was.  The order is assumed asymmetric and connected. *)
Theorem X11_remove_of_a_missing_key_is_a_noop
        (V : Type) (lt : V -> V -> bool)
        (lt_asym : forall a b, lt a b = true -> lt b a = false)
        (lt_connected : forall a b, lt a b = false -> lt b a = false -> a = b)
        (h : Handle V) (Hreach : reachable lt h) (k : V)
        (Hmissing : forall y, In y (handle_iterator h) -> keyFn h y <> k) :
  handle_remove lt h k = Some h.
Proof.
  pose proof (@reachable_avl V lt lt_asym h Hreach) as Ha.
  unfold handle_remove.
  rewrite (@remove_missing V lt lt_connected (keyFn h) k (tree h) Ha Hmissing).
  cbn [bind]. now destruct h.
Qed.

Lemma X11_remove_of_a_missing_key_is_a_noop_witness :
  (forall a b, (a <? b) = true -> (b <? a) = false) /\
  (forall a b, (a <? b) = false -> (b <? a) = false -> a = b) /\
  reachable Z.ltb tree_80_30_80_tenth /\
  (forall y, In y (handle_iterator tree_80_30_80_tenth) ->
             keyFn tree_80_30_80_tenth y <> 5) /\
  handle_remove Z.ltb tree_80_30_80_tenth 5 = Some tree_80_30_80_tenth.
Proof.
  assert (H : forall y, In y (handle_iterator tree_80_30_80_tenth) ->
                keyFn tree_80_30_80_tenth y <> 5).
  { intros y. simpl. intros [<- | [<- | [<- | []]]]; discriminate. }
  split; [exact Zltb_asym|]. split; [exact Zltb_connected|].
  split; [exact tree_80_30_80_tenth_reachable|]. split; [exact H|].
  exact (@X11_remove_of_a_missing_key_is_a_noop
           Z Z.ltb Zltb_asym Zltb_connected
           tree_80_30_80_tenth tree_80_30_80_tenth_reachable 5 H).
Defined.

(** X12. The height of a reachable tree is logarithmic in the number of
    stored values: two to the power of half the root's height is at most
    the number of values plus one.  The root's cached height is the true
    height. *)
Theorem X12_height_is_logarithmic
        (V : Type) (lt : V -> V -> bool)
        (lt_asym : forall a b, lt a b = true -> lt b a = false)
        (h : Handle V) (Hreach : reachable lt h) :
  2 ^ (height (tree h) / 2) <= Z.of_nat (length (handle_iterator h)) + 1 /\
  height (tree h) = depth (tree h).
Proof.
  pose proof (@reachable_avl V lt lt_asym h Hreach) as Ha. split.
  - exact (@avl_height_log V (tree h) Ha).
  - exact (@avl_depth V (tree h) Ha).
Qed.

Lemma X12_height_is_logarithmic_witness :
  (forall a b, (a <? b) = true -> (b <? a) = false) /\
  reachable Z.ltb tree_5_3_8_2 /\
  2 ^ (height (tree tree_5_3_8_2) / 2)
    <= Z.of_nat (length (handle_iterator tree_5_3_8_2)) + 1 /\
  height (tree tree_5_3_8_2) = depth (tree tree_5_3_8_2).
Proof.
  split; [exact Zltb_asym|]. split; [exact tree_5_3_8_2_reachable|].
  exact (@X12_height_is_logarithmic
           Z Z.ltb Zltb_asym tree_5_3_8_2 tree_5_3_8_2_reachable).
Defined.

(** X13. On every reachable handle, with any key function, the keys of the
    ascending traversal never decrease, also after a removal has left two
    values under one key.  The order is assumed to be a strict weak
    order. *)
Theorem X13_traversal_keys_never_decrease
        (V : Type) (lt : V -> V -> bool)
        (lt_asym : forall a b, lt a b = true -> lt b a = false)
        (lt_negtrans :
           forall a b c, lt a b = false -> lt b c = false -> lt a c = false)
        (h : Handle V) (Hreach : reachable lt h) :
  nondecreasing lt (keyFn h) (handle_iterator h).
Proof.
  apply (@ordered_nondecreasing V lt lt_negtrans (keyFn h) (tree h)).
  exact (@reachable_ordered V lt lt_asym lt_negtrans h Hreach).
Qed.

Lemma X13_traversal_keys_never_decrease_witness :
  (forall a b, (a <? b) = true -> (b <? a) = false) /\
  (forall a b c, (a <? b) = false -> (b <? c) = false -> (a <? c) = false) /\
  reachable Z.ltb tree_80_30_80_tenth /\
  nondecreasing Z.ltb (keyFn tree_80_30_80_tenth) (handle_iterator tree_80_30_80_tenth).
Proof.
  split; [exact Zltb_asym|]. split; [exact Zltb_negtrans|].
  split; [exact tree_80_30_80_tenth_reachable|].
  exact (@X13_traversal_keys_never_decrease
           Z Z.ltb Zltb_asym Zltb_negtrans
           tree_80_30_80_tenth tree_80_30_80_tenth_reachable).
Defined.

(** X14. [minNodeValue] of a present node returns a node without a left
    child whose value is the first value of the ascending traversal of the
    subtree; of an absent node it returns the absent node. *)
Theorem X14_minNodeValue_is_the_leftmost_node
        (V : Type) (val : V) (l r : AVLNode V) (h : Z) :
  (exists tval tr th rest,
     minNodeValue (Node val l r h) = Node tval undefined tr th /\
     traverse (Node val l r h) = tval :: rest) /\
  minNodeValue (@undefined V) = undefined.
Proof. split; [apply minNodeValue_leftmost | reflexivity]. Qed.

(** X15. With the identity key and a total order, [remove(k)] on a reachable
    handle returns; afterwards [get(k)] is not-found, the stored values are
    the former ones other than [k], the traversal is one shorter when [k]
    was stored, and the handle is unchanged when it was not. *)
Theorem X15_identity_key_remove_is_exact
        (V : Type) (lt seq : V -> V -> bool)
        (lt_asym : forall a b, lt a b = true -> lt b a = false)
        (lt_negtrans :
           forall a b c, lt a b = false -> lt b c = false -> lt a c = false)
        (lt_connected : forall a b, lt a b = false -> lt b a = false -> a = b)
        (seq_spec : forall a b, seq a b = true <-> a = b)
        (h : Handle V) (k : V)
        (Hreach : reachable lt h) (Hid : forall v, keyFn h v = v) :
  exists h', handle_remove lt h k = Some h' /\
             handle_get lt seq h' k = None /\
             (forall y, In y (handle_iterator h') <->
                        In y (handle_iterator h) /\ y <> k) /\
             (In k (handle_iterator h) ->
              length (handle_iterator h) = S (length (handle_iterator h'))) /\
             (~ In k (handle_iterator h) -> h' = h).
Proof.
  exact (@identity_key_remove V lt seq lt_asym lt_negtrans lt_connected seq_spec
           h k Hreach Hid).
Qed.

Lemma X15_identity_key_remove_is_exact_witness :
  (forall a b, (a <? b) = true -> (b <? a) = false) /\
  (forall a b c, (a <? b) = false -> (b <? c) = false -> (a <? c) = false) /\
  (forall a b, (a <? b) = false -> (b <? a) = false -> a = b) /\
  (forall a b, (a =? b) = true <-> a = b) /\
  reachable Z.ltb tree_5_3_8_2 /\
  (forall v, keyFn tree_5_3_8_2 v = v) /\
  exists h', handle_remove Z.ltb tree_5_3_8_2 5 = Some h' /\
             handle_get Z.ltb Z.eqb h' 5 = None /\
             (forall y, In y (handle_iterator h') <->
                        In y (handle_iterator tree_5_3_8_2) /\ y <> 5) /\
             (In 5 (handle_iterator tree_5_3_8_2) ->
              length (handle_iterator tree_5_3_8_2) = S (length (handle_iterator h'))) /\
             (~ In 5 (handle_iterator tree_5_3_8_2) -> h' = tree_5_3_8_2).
Proof.
  split; [exact Zltb_asym|]. split; [exact Zltb_negtrans|].
  split; [exact Zltb_connected|]. split; [exact Zeqb_spec|].
  split; [exact tree_5_3_8_2_reachable|]. split; [reflexivity|].
  exact (@X15_identity_key_remove_is_exact
           Z Z.ltb Z.eqb Zltb_asym Zltb_negtrans Zltb_connected Zeqb_spec
           tree_5_3_8_2 5 tree_5_3_8_2_reachable (fun v => eq_refl)).
Defined.

(** X16. With the identity key and a total order, a run of [insert] and
    [remove] calls on a reachable handle returns, and the handle then holds
    exactly the set of values that the calls describe ([set_run]); its
    ascending traversal is strictly increasing and [get] decides membership
    in that set. *)
Theorem X16_identity_key_runs_follow_set_semantics
        (V : Type) (lt seq : V -> V -> bool)
        (lt_asym : forall a b, lt a b = true -> lt b a = false)
        (lt_negtrans :
           forall a b c, lt a b = false -> lt b c = false -> lt a c = false)
        (lt_connected : forall a b, lt a b = false -> lt b a = false -> a = b)
        (seq_spec : forall a b, seq a b = true <-> a = b)
        (h : Handle V) (ops : list (Op V))
        (Hreach : reachable lt h) (Hid : forall v, keyFn h v = v) :
  exists h', handle_run lt h ops = Some h' /\
             (forall y, In y (handle_iterator h') <->
                        In y (set_run seq (handle_iterator h) ops)) /\
             increasing lt (keyFn h') (handle_iterator h') /\
             (forall y, In y (set_run seq (handle_iterator h) ops) ->
                        handle_get lt seq h' y = Some y) /\
             (forall y, ~ In y (set_run seq (handle_iterator h) ops) ->
                        handle_get lt seq h' y = None).
Proof.
  destruct (@identity_run V lt seq lt_asym lt_negtrans lt_connected seq_spec
              ops h (handle_iterator h) Hreach Hid)
    as (h' & E & Hr' & Hid' & Hin); [tauto|].
  exists h'. repeat split; auto; try apply Hin.
  - exact (@identity_key_traversal_increasing V lt seq lt_asym lt_negtrans
             lt_connected seq_spec h' Hr' Hid').
  - intros y Hy.
    apply (@identity_key_get V lt seq lt_asym lt_negtrans lt_connected seq_spec
             h' y Hr' Hid'). now apply Hin.
  - intros y Hy.
    apply (@identity_key_get V lt seq lt_asym lt_negtrans lt_connected seq_spec
             h' y Hr' Hid'). intros Hy'. apply Hy. now apply Hin.
Qed.

Lemma X16_identity_key_runs_follow_set_semantics_witness :
  (forall a b, (a <? b) = true -> (b <? a) = false) /\
  (forall a b c, (a <? b) = false -> (b <? c) = false -> (a <? c) = false) /\
  (forall a b, (a <? b) = false -> (b <? a) = false -> a = b) /\
  (forall a b, (a =? b) = true <-> a = b) /\
  reachable Z.ltb tree_5_3_8_2 /\
  (forall v, keyFn tree_5_3_8_2 v = v) /\
  exists h',
    handle_run Z.ltb tree_5_3_8_2 [OpInsert 4; OpRemove 5; OpRemove 7; OpInsert 3]
    = Some h' /\
    (forall y, In y (handle_iterator h') <->
               In y (set_run Z.eqb (handle_iterator tree_5_3_8_2)
                             [OpInsert 4; OpRemove 5; OpRemove 7; OpInsert 3])) /\
    increasing Z.ltb (keyFn h') (handle_iterator h') /\
    (forall y, In y (set_run Z.eqb (handle_iterator tree_5_3_8_2)
                             [OpInsert 4; OpRemove 5; OpRemove 7; OpInsert 3]) ->
               handle_get Z.ltb Z.eqb h' y = Some y) /\
    (forall y, ~ In y (set_run Z.eqb (handle_iterator tree_5_3_8_2)
                               [OpInsert 4; OpRemove 5; OpRemove 7; OpInsert 3]) ->
               handle_get Z.ltb Z.eqb h' y = None).
Proof.
  split; [exact Zltb_asym|]. split; [exact Zltb_negtrans|].
  split; [exact Zltb_connected|]. split; [exact Zeqb_spec|].
  split; [exact tree_5_3_8_2_reachable|]. split; [reflexivity|].
  exact (@X16_identity_key_runs_follow_set_semantics
           Z Z.ltb Z.eqb Zltb_asym Zltb_negtrans Zltb_connected Zeqb_spec
           tree_5_3_8_2 [OpInsert 4; OpRemove 5; OpRemove 7; OpInsert 3]
           tree_5_3_8_2_reachable (fun v => eq_refl)).
Defined.

(** X17. On a reachable handle, with any key function, inserting the same
    value a second time changes nothing: the first [insert] returns a handle
    on which the second returns that same handle.  The order is assumed
    total. *)
Theorem X17_inserting_twice_is_inserting_once
        (V : Type) (lt : V -> V -> bool)
        (lt_asym : forall a b, lt a b = true -> lt b a = false)
        (lt_negtrans :
           forall a b c, lt a b = false -> lt b c = false -> lt a c = false)
        (lt_connected : forall a b, lt a b = false -> lt b a = false -> a = b)
        (h : Handle V) (Hreach : reachable lt h) (val : V) :
  exists h1, handle_insert lt h val = Some h1 /\
             handle_insert lt h1 val = Some h1.
Proof.
  pose proof (@reachable_avl V lt lt_asym h Hreach) as Ha.
  destruct (insert_avl lt lt_asym (keyFn h) val (tree h) Ha) as (t1 & E & _).
  assert (E1 : handle_insert lt h val = Some (MkHandle t1 (keyFn h))).
  { unfold handle_insert. rewrite E. reflexivity. }
  exists (MkHandle t1 (keyFn h)). split; [exact E1|].
  assert (Hr1 : reachable lt (MkHandle t1 (keyFn h))).
  { apply (@reachable_step V lt h _ (OpInsert val) Hreach). exact E1. }
  destruct (@insert_has_key V lt lt_asym lt_connected (keyFn h) val (tree h) t1 E)
    as (y & Hy & Hk).
  unfold handle_insert. cbn [tree keyFn].
  rewrite (@insert_duplicate V lt lt_asym (keyFn h) val y t1); auto.
  - exact (@reachable_avl V lt lt_asym _ Hr1).
  - exact (@reachable_ordered V lt lt_asym lt_negtrans _ Hr1).
Qed.

Lemma X17_inserting_twice_is_inserting_once_witness :
  (forall a b, (a <? b) = true -> (b <? a) = false) /\
  (forall a b c, (a <? b) = false -> (b <? c) = false -> (a <? c) = false) /\
  (forall a b, (a <? b) = false -> (b <? a) = false -> a = b) /\
  reachable Z.ltb tree_80_30_80_tenth /\
  exists h1, handle_insert Z.ltb tree_80_30_80_tenth 45 = Some h1 /\
             handle_insert Z.ltb h1 45 = Some h1.
Proof.
  split; [exact Zltb_asym|]. split; [exact Zltb_negtrans|].
  split; [exact Zltb_connected|]. split; [exact tree_80_30_80_tenth_reachable|].
  exact (@X17_inserting_twice_is_inserting_once
           Z Z.ltb Zltb_asym Zltb_negtrans Zltb_connected
           tree_80_30_80_tenth tree_80_30_80_tenth_reachable 45).
Defined.

(** X18. A handle never stores a value it was not given: after any
    construction and any run of calls that returns, every value of the
    traversal is an item of the constructor's iterable or the argument of
    one of the [insert] calls. *)
Theorem X18_stored_values_come_from_the_caller
        (V : Type) (lt : V -> V -> bool)
        (args : list (Arg V)) (ops : list (Op V)) (h : Handle V)
        (Hrun : (h0 <- AVLTree lt args ;; handle_run lt h0 ops) = Some h) :
  forall y, In y (handle_iterator h) -> In y (supplied args ops).
Proof.
  intros y Hy. unfold supplied. apply in_app_iff.
  destruct (AVLTree lt args) as [h0|] eqn:E0; [|discriminate].
  cbn [bind] in Hrun.
  destruct (@handle_run_In V lt ops h0 h Hrun y Hy) as [Hy0 | Hy0]; [left | now right].
  unfold AVLTree in E0. unfold handle_iterator in Hy0.
  destruct (nth_error args 0) as [[f | items |] |];
    try (injection E0 as <-; destruct Hy0).
  match type of E0 with
  | context [insertAll lt undefined items ?k] =>
      destruct (insertAll lt undefined items k) as [t1|] eqn:E1; [|discriminate]
  end.
  injection E0 as <-. cbn [tree] in Hy0.
  match type of E1 with
  | insertAll lt undefined items ?k = _ =>
      destruct (@insertAll_In V lt k items undefined t1 E1 y Hy0) as [[] | H]
  end.
  exact H.
Qed.

Lemma X18_stored_values_come_from_the_caller_witness :
  (h0 <- AVLTree Z.ltb [ArgIterable [50; 30; 80]; ArgFunction tenth] ;;
   handle_run Z.ltb h0 [OpRemove 5; OpInsert 45]) = Some
     (MkHandle (Node 80 (Node 30 undefined (Node 45 undefined undefined 1) 2)
                        (Node 80 undefined undefined 1) 3) tenth) /\
  forall y,
    In y (handle_iterator
            (MkHandle (Node 80 (Node 30 undefined (Node 45 undefined undefined 1) 2)
                               (Node 80 undefined undefined 1) 3) tenth)) ->
    In y (supplied [ArgIterable [50; 30; 80]; ArgFunction tenth]
                   [OpRemove 5; OpInsert 45]).
Proof.
  split; [reflexivity|].
  apply (@X18_stored_values_come_from_the_caller Z Z.ltb
           [ArgIterable [50; 30; 80]; ArgFunction tenth]
           [OpRemove 5; OpInsert 45]).
  reflexivity.
Defined.

(** X19. The rotations undo each other: on a node whose right child is
    present and whose two cached heights are correct, [leftRotate] followed
    by [rightRotate] returns the node itself, and symmetrically for a node
    whose left child is present. *)
Theorem X19_rotations_undo_each_other
        (V : Type) (val cval : V) (a b c : AVLNode V) (h ch h' ch' : Z)
        (Hch : ch = 1 + Z.max (height b) (height c))
        (Hh : h = 1 + Z.max (height a) ch)
        (Hch' : ch' = 1 + Z.max (height a) (height b))
        (Hh' : h' = 1 + Z.max ch' (height c)) :
  (t1 <- leftRotate (Node val a (Node cval b c ch) h) ;; rightRotate t1)
  = Some (Node val a (Node cval b c ch) h) /\
  (t1 <- rightRotate (Node val (Node cval a b ch') c h') ;; leftRotate t1)
  = Some (Node val (Node cval a b ch') c h').
Proof. subst. split; reflexivity. Qed.

Lemma X19_rotations_undo_each_other_witness :
  2 = 1 + Z.max (height (Node 4 undefined undefined 1)) (height (@undefined Z)) /\
  3 = 1 + Z.max (height (@undefined Z)) 2 /\
  2 = 1 + Z.max (height (@undefined Z)) (height (Node 4 undefined undefined 1)) /\
  3 = 1 + Z.max 2 (height (@undefined Z)) /\
  (t1 <- leftRotate (Node 3 undefined
                          (Node 5 (Node 4 undefined undefined 1) undefined 2) 3) ;;
   rightRotate t1)
  = Some (Node 3 undefined (Node 5 (Node 4 undefined undefined 1) undefined 2) 3) /\
  (t1 <- rightRotate (Node 3 (Node 5 undefined (Node 4 undefined undefined 1) 2)
                           undefined 3) ;;
   leftRotate t1)
  = Some (Node 3 (Node 5 undefined (Node 4 undefined undefined 1) 2) undefined 3).
Proof.
  split; [reflexivity|]. split; [reflexivity|].
  split; [reflexivity|]. split; [reflexivity|].
  exact (@X19_rotations_undo_each_other Z 3 5
           undefined (Node 4 undefined undefined 1) undefined 3 2 3 2
           eq_refl eq_refl eq_refl eq_refl).
Defined.

(** X20. The documented call shapes with a key function: called with the key
    function alone the constructor returns the empty handle keyed by it;
    called with an iterable and a key function it returns what one [insert]
    call per item, in iteration order, produces from that empty handle. *)
Theorem X20_keyed_constructor_is_a_run_of_inserts
        (V : Type) (lt : V -> V -> bool) (key : V -> V) (items : list V) :
  AVLTree lt [ArgFunction key] = Some (MkHandle undefined key) /\
  AVLTree lt [ArgIterable items; ArgFunction key]
  = handle_run lt (MkHandle undefined key) (map (@OpInsert V) items).
Proof.
  split; [reflexivity|]. unfold AVLTree. cbn [nth_error].
  generalize (@undefined V) as t.
  induction items as [|item rest IH]; intros t; [reflexivity|].
  cbn [insertAll map handle_run handle_step]. unfold handle_insert.
  cbn [tree keyFn].
  destruct (insert lt t item key) as [t1|]; [|reflexivity].
  cbn [bind]. apply IH.
Qed.

(** ** Lookup on weakly ordered trees *)

Section WeakLookup.

Variable V : Type.
Variable lt : V -> V -> bool.
Variable seq : V -> V -> bool.

Hypothesis lt_connected : forall a b, lt a b = false -> lt b a = false -> a = b.
Hypothesis seq_spec : forall a b, seq a b = true <-> a = b.

Variable key : V -> V.

Lemma get_complete (y : V) (t : AVLNode V) :
  ordered lt key t -> In y (traverse t) ->
  exists v, get lt seq t key (key y) = Some v.
Proof.
  induction t as [|x l IHl r IHr h]; [intros _ []|].
  intros (Hl & Hr & Ol & Or) Hy. rewrite every_In in Hl, Hr.
  rewrite traverse_Node in Hy. apply in_app_iff in Hy.
  cbn [get]. unfold gt.
  destruct (seq (key y) (key x)) eqn:Es; [eauto|].
  assert (Hne : key y <> key x).
  { intros E. apply seq_spec in E. congruence. }
  destruct (lt (key x) (key y)) eqn:Egt.
  - destruct Hy as [Hy | [-> | Hy]]; [|congruence | now apply IHr].
    apply Hl in Hy. congruence.
  - destruct (lt (key y) (key x)) eqn:Elt.
    + destruct Hy as [Hy | [-> | Hy]]; [now apply IHl | congruence |].
      apply Hr in Hy. congruence.
    + exfalso. apply Hne. now apply lt_connected.
Qed.

End WeakLookup.

(** X21. Rebalancing never changes the in-order sequence: whenever the
    rebalancing step of [insert] or the one of [remove] returns, whatever
    rotations it has applied, the ascending and descending traversals of the
    result are the ones of the node it was given. *)
Theorem X21_rebalancing_preserves_the_traversal
        (V : Type) (lt : V -> V -> bool) (key : V -> V) (inserted_val : V)
        (node t' : AVLNode V)
        (Hret : balanceAfterInsert lt node inserted_val key = Some t' \/
                rebalanceAfterRemove node = Some t') :
  traverse t' = traverse node /\
  traverseReversed t' = traverseReversed node.
Proof.
  assert (H : traverse t' = traverse node).
  { destruct Hret as [H | H].
    - exact (@balanceAfterInsert_traverse V lt key inserted_val node t' H).
    - exact (@rebalanceAfterRemove_traverse V node t' H). }
  rewrite !traverseReversed_rev, H. auto.
Qed.

Lemma X21_rebalancing_preserves_the_traversal_witness :
  (balanceAfterInsert Z.ltb
     (Node 10 undefined (Node 30 (Node 20 undefined undefined 1) undefined 2) 3)
     20 (fun x => x)
   = Some (Node 20 (Node 10 undefined undefined 1) (Node 30 undefined undefined 1) 2) \/
   rebalanceAfterRemove
     (Node 10 undefined (Node 30 (Node 20 undefined undefined 1) undefined 2) 3)
   = Some (Node 20 (Node 10 undefined undefined 1) (Node 30 undefined undefined 1) 2)) /\
  traverse (Node 20 (Node 10 undefined undefined 1) (Node 30 undefined undefined 1) 2)
  = traverse (Node 10 undefined
                   (Node 30 (Node 20 undefined undefined 1) undefined 2) 3) /\
  traverseReversed
    (Node 20 (Node 10 undefined undefined 1) (Node 30 undefined undefined 1) 2)
  = traverseReversed
      (Node 10 undefined (Node 30 (Node 20 undefined undefined 1) undefined 2) 3).
Proof.
  split; [left; reflexivity|].
  exact (@X21_rebalancing_preserves_the_traversal Z Z.ltb (fun x => x) 20
           (Node 10 undefined (Node 30 (Node 20 undefined undefined 1) undefined 2) 3)
           (Node 20 (Node 10 undefined undefined 1) (Node 30 undefined undefined 1) 2)
           (or_introl eq_refl)).
Defined.

(** X22. Lookup never misses a stored key: on every reachable handle, with
    any key function, [get] called with the key of a stored value returns a
    stored value with that key, also after a removal has left two values
    under one key.  The order is assumed total, with [===] as its
    equality. *)
Theorem X22_get_finds_every_stored_key
        (V : Type) (lt seq : V -> V -> bool)
        (lt_asym : forall a b, lt a b = true -> lt b a = false)
        (lt_negtrans :
           forall a b c, lt a b = false -> lt b c = false -> lt a c = false)
        (lt_connected : forall a b, lt a b = false -> lt b a = false -> a = b)
        (seq_spec : forall a b, seq a b = true <-> a = b)
        (h : Handle V) (Hreach : reachable lt h)
        (y : V) (Hy : In y (handle_iterator h)) :
  exists v, handle_get lt seq h (keyFn h y) = Some v /\
            In v (handle_iterator h) /\ keyFn h v = keyFn h y.
Proof.
  pose proof (@reachable_ordered V lt lt_asym lt_negtrans h Hreach) as Ho.
  destruct (@get_complete V lt seq lt_connected seq_spec (keyFn h) y (tree h) Ho Hy)
    as (v & Hv).
  exists v. split; [exact Hv|].
  destruct (@get_sound V lt seq (keyFn h) (keyFn h y) v (tree h) Hv) as (Hin & Hs).
  split; [exact Hin|]. symmetry. now apply seq_spec.
Qed.

Lemma X22_get_finds_every_stored_key_witness :
  (forall a b, (a <? b) = true -> (b <? a) = false) /\
  (forall a b c, (a <? b) = false -> (b <? c) = false -> (a <? c) = false) /\
  (forall a b, (a <? b) = false -> (b <? a) = false -> a = b) /\
  (forall a b, (a =? b) = true <-> a = b) /\
  reachable Z.ltb tree_80_30_80_tenth /\
  In 80 (handle_iterator tree_80_30_80_tenth) /\
  exists v, handle_get Z.ltb Z.eqb tree_80_30_80_tenth (keyFn tree_80_30_80_tenth 80)
            = Some v /\
            In v (handle_iterator tree_80_30_80_tenth) /\
            keyFn tree_80_30_80_tenth v = keyFn tree_80_30_80_tenth 80.
Proof.
  assert (H : In 80 (handle_iterator tree_80_30_80_tenth)) by (simpl; auto).
  split; [exact Zltb_asym|]. split; [exact Zltb_negtrans|].
  split; [exact Zltb_connected|]. split; [exact Zeqb_spec|].
  split; [exact tree_80_30_80_tenth_reachable|]. split; [exact H|].
  exact (@X22_get_finds_every_stored_key
           Z Z.ltb Z.eqb Zltb_asym Zltb_negtrans Zltb_connected Zeqb_spec
           tree_80_30_80_tenth tree_80_30_80_tenth_reachable 80 H).
Defined.

(** X23. Insert then look up: on every reachable handle, with any key
    function, [insert(val)] returns and [get(key(val))] then returns a stored
    value with the key of [val]; it is [val] itself when no stored value had
    that key.  The order is assumed total, with [===] as its equality. *)
Theorem X23_insert_then_get_finds_the_key
        (V : Type) (lt seq : V -> V -> bool)
        (lt_asym : forall a b, lt a b = true -> lt b a = false)
        (lt_negtrans :
           forall a b c, lt a b = false -> lt b c = false -> lt a c = false)
        (lt_connected : forall a b, lt a b = false -> lt b a = false -> a = b)
        (seq_spec : forall a b, seq a b = true <-> a = b)
        (h : Handle V) (Hreach : reachable lt h) (val : V) :
  exists h1 v,
    handle_insert lt h val = Some h1 /\
    handle_get lt seq h1 (keyFn h val) = Some v /\
    keyFn h v = keyFn h val /\
    ((forall y, In y (handle_iterator h) -> keyFn h y <> keyFn h val) -> v = val).
Proof.
  pose proof (@reachable_avl V lt lt_asym h Hreach) as Ha.
  destruct (insert_avl lt lt_asym (keyFn h) val (tree h) Ha) as (t1 & E & _).
  assert (E1 : handle_insert lt h val = Some (MkHandle t1 (keyFn h))).
  { unfold handle_insert. rewrite E. reflexivity. }
  assert (Hr1 : reachable lt (MkHandle t1 (keyFn h))).
  { apply (@reachable_step V lt h _ (OpInsert val) Hreach). exact E1. }
  pose proof (@reachable_ordered V lt lt_asym lt_negtrans _ Hr1) as Ho1.
  cbn [tree keyFn] in Ho1.
  destruct (@insert_has_key V lt lt_asym lt_connected (keyFn h) val (tree h) t1 E)
    as (y & Hy & Hk).
  destruct (@get_complete V lt seq lt_connected seq_spec (keyFn h) y t1 Ho1 Hy)
    as (v & Hv).
  rewrite Hk in Hv.
  destruct (@get_sound V lt seq (keyFn h) (keyFn h val) v t1 Hv) as (Hin & Hs).
  apply seq_spec in Hs.
  exists (MkHandle t1 (keyFn h)), v. split; [exact E1|].
  split; [exact Hv|]. split; [now symmetry|].
  intros Hfresh.
  destruct (@insert_In V lt (keyFn h) val (tree h) t1 E v Hin) as [-> | Hold];
    [reflexivity|].
  exfalso. apply (Hfresh v Hold). now symmetry.
Qed.

Lemma X23_insert_then_get_finds_the_key_witness :
  (forall a b, (a <? b) = true -> (b <? a) = false) /\
  (forall a b c, (a <? b) = false -> (b <? c) = false -> (a <? c) = false) /\
  (forall a b, (a <? b) = false -> (b <? a) = false -> a = b) /\
  (forall a b, (a =? b) = true <-> a = b) /\
  reachable Z.ltb tree_80_30_80_tenth /\
  exists h1 v,
    handle_insert Z.ltb tree_80_30_80_tenth 45 = Some h1 /\
    handle_get Z.ltb Z.eqb h1 (keyFn tree_80_30_80_tenth 45) = Some v /\
    keyFn tree_80_30_80_tenth v = keyFn tree_80_30_80_tenth 45 /\
    ((forall y, In y (handle_iterator tree_80_30_80_tenth) ->
                keyFn tree_80_30_80_tenth y <> keyFn tree_80_30_80_tenth 45) ->
     v = 45).
Proof.
  split; [exact Zltb_asym|]. split; [exact Zltb_negtrans|].
  split; [exact Zltb_connected|]. split; [exact Zeqb_spec|].
  split; [exact tree_80_30_80_tenth_reachable|].
  exact (@X23_insert_then_get_finds_the_key
           Z Z.ltb Z.eqb Zltb_asym Zltb_negtrans Zltb_connected Zeqb_spec
           tree_80_30_80_tenth tree_80_30_80_tenth_reachable 45).
Defined.
